(** * minty: the asset store ([src/storage.js])

    A shallow embedding of the [AssetStorage] class and of
    [MakeAssetStorage], followed by the properties of the store that the
    specification states.

    Modelling decisions.
    - A JavaScript string is a [string]; the only string operations of
      the store, [startsWith] and [slice] with the ASCII text [ipfs://],
      act alike on the UTF-16 and on the UTF-8 form.  A [Uint8Array] is a
      [list byte].  The node hands out an identifier as a [CID] object,
      which is not a string; [addAsset] passes that object on as it is,
      to [pin] and to its caller.  Where the store is given an identifier
      it is given a [Value]: a string or a [CID] object.
    - The embedded IPFS node, the file system and the helpers taken from
      npm packages are not part of the repository: they are the fields of
      the class [Env].  A node operation takes the state of the node and
      gives back its answer together with the next state of the node.
      The field [ipfs] of the store holds the state of the node behind
      the handle; the handle is replaced only where [init] creates a node,
      which the event [EvCreate] records.
    - An [async] method is a function from the state of the world to the
      way its promise settles ([Returned], [Thrown]) or fails to settle
      ([Pending]) and the next state of the world.  The world holds the
      [AssetStorage] object, what was written to the console, and the
      calls that were made on the node.
    - [Promise.all] in [pin] runs one task per pinning service.  The order
      in which the replies of the services arrive is not fixed by the
      program: it is the [schedule] argument of [pin], a list of task
      numbers.  A reply that is not in the schedule never arrives.
      [Promise.all] is fulfilled when every task is, and rejected as soon
      as one task is; the tasks that have not settled by then stay in
      flight ([inflight]), and what they do later is not followed.
      Outside [pin] one call is awaited at a time, and it is taken to
      settle.  *)

From Stdlib Require Import Strings.Byte.
From stdpp Require Import base list strings.

Local Open Scope string_scope.
Local Open Scope list_scope.

(** ** Values *)

Definition bytes := list byte.

#[global] Instance byte_eq_decision : EqDecision byte := byte_eq_dec.

Inductive Error :=
| TypeError (msg : string)
| LibError (msg : string).

#[global] Instance Error_eq_decision : EqDecision Error.
Proof. solve_decision. Defined.

(** The [TypeError]s of V8, the engine of Node.js: for a property read on
    [undefined], as in [this.ipfs.cat] when [this.ipfs] is [undefined],
    and for a call of what is not a function. *)
Definition reading_undefined (property : string) : Error :=
  TypeError
    ("Cannot read properties of undefined (reading '" +:+ property +:+ "')").

Definition not_a_function (callee : string) : Error :=
  TypeError (callee +:+ " is not a function").

(** A [CID] object of [ipfs-core], as in the field [cid] of what
    [ipfs.add] gives.  It is an object, not a string: it has no method
    [startsWith]; its method [toString] gives the text of the identifier. *)
Record CID := { CID_toString : string }.

#[global] Instance CID_eq_decision : EqDecision CID.
Proof. solve_decision. Defined.

(** What the store is handed as an identifier: the parameters [cid] and
    [cidOrURI] are not typed, and the program passes strings and [CID]
    objects. *)
Inductive Value :=
| VString (s : string)
| VCID (c : CID).

#[global] Instance Value_eq_decision : EqDecision Value.
Proof. solve_decision. Defined.

Coercion VString : string >-> Value.
Coercion VCID : CID >-> Value.

(** [String.prototype.startsWith] and the one-argument
    [String.prototype.slice]. *)
Definition startsWith (s searchString : string) : bool :=
  String.prefix searchString s.

Definition slice (s : string) (start : nat) : string :=
  String.substring start (String.length s - start) s.

(** A bare identifier: a string that is not a URI of the scheme
    [ipfs://]. *)
Definition bare (x : string) : Prop := startsWith x "ipfs://" = false.

(** [uint8ArrayConcat]: the arrays one after the other. *)
Definition uint8ArrayConcat (arrays : list bytes) : bytes := concat arrays.

(** ** Configuration *)

(** [svc.accessToken] is a string, or a function that is called without
    arguments (and may throw). *)
Inductive AccessToken :=
| TokenString (key : string)
| TokenFunction (f : unit -> Error + string).

Record PinningServiceConfig := {
  name : string;
  endpoint : string;
  accessToken : AccessToken;
}.

Module AssetStorageConfig.
Record t := { pinningServices : list PinningServiceConfig }.
End AssetStorageConfig.

(** ** The environment *)

(** What [ipfs.pin.remote.ls] yields: an async iterator gives items until
    it ends or fails. *)
Inductive LsStream :=
| LsEnd
| LsItem (record : string) (rest : LsStream)
| LsFail (e : Error).

Inductive Encoding := Utf8 | Base64.

Class Env (Node : Type) := {
  IPFS_create : bool -> Error + Node;
  ipfs_pin_remote_service_add :
    string -> string -> string -> Node -> (Error + unit) * Node;
  (** [(await ipfs.add {path, content}).cid] *)
  ipfs_add : string -> bytes -> Node -> (Error + CID) * Node;
  ipfs_pin_remote_ls : Value -> string -> Node -> LsStream * Node;
  ipfs_pin_remote_add :
    Value -> string -> bool -> Node -> (Error + unit) * Node;
  (** [all (ipfs.cat cid)]: every chunk, or the failure of the stream. *)
  ipfs_cat : string -> Node -> (Error + list bytes) * Node;
  fs_readFile : string -> Error + bytes;
  path_basename : string -> string;
  uint8ArrayToString : bytes -> Encoding -> string;
}.

(** ** The world *)

Inductive LsReply :=
| SaysPinned
| SaysNotPinned
| LsFailed (e : Error).

(** The calls made on the node and on the file system, and the replies of
    the pinning services. *)
Inductive Event :=
| EvCreate (silent : bool)
| EvServiceAdd (name endpoint key : string)
| EvReadFile (filename : string)
| EvAdd (path : string) (content : bytes)
| EvCat (cid : string)
| EvLs (cid : Value) (service : string)
| EvLsReply (cid : Value) (service : string) (r : LsReply)
| EvPinAdd (cid : Value) (service : string) (background : bool)
| EvPinAddReply (cid : Value) (service : string) (r : option Error).

(** The lines written with [console.log] and [console.error]. *)
Inductive Log :=
| LogReading (filename : string)
| LogAdded (cid : Value)
| LogNoServices (cid : Value)
| LogPinned (cid : Value)
| LogPinningError (e : Error)
| LogAlreadyPinned (cid : Value).

#[global] Instance LsReply_eq_decision : EqDecision LsReply.
Proof. solve_decision. Defined.
#[global] Instance Event_eq_decision : EqDecision Event.
Proof. solve_decision. Defined.
#[global] Instance Log_eq_decision : EqDecision Log.
Proof. solve_decision. Defined.

Record AssetStorage (Node : Type) := {
  config : AssetStorageConfig.t;
  _initialized : bool;
  ipfs : option Node;
  pinningServices : list string;
}.
Arguments config {Node} _.
Arguments _initialized {Node} _.
Arguments ipfs {Node} _.
Arguments pinningServices {Node} _.

(** [inflight] lists the (cid, service) tasks of [pin] that had not
    settled when [pin] went on without them. *)
Record World (Node : Type) := {
  this : AssetStorage Node;
  console : list Log;
  events : list Event;
  inflight : list (Value * string);
}.
Arguments this {Node} _.
Arguments console {Node} _.
Arguments events {Node} _.
Arguments inflight {Node} _.

(** How a promise ends. *)
Inductive Outcome (A : Type) :=
| Returned (a : A)
| Thrown (e : Error)
| Pending.
Arguments Returned {A} a.
Arguments Thrown {A} e.
Arguments Pending {A}.

Definition Async (Node A : Type) := World Node -> Outcome A * World Node.

Definition ret {Node A} (a : A) : Async Node A := fun w => (Returned a, w).
Definition throw {Node A} (e : Error) : Async Node A := fun w => (Thrown e, w).
Definition bind {Node A B} (m : Async Node A) (k : A -> Async Node B)
  : Async Node B :=
  fun w =>
    match m w with
    | (Returned a, w') => k a w'
    | (Thrown e, w') => (Thrown e, w')
    | (Pending, w') => (Pending, w')
    end.

Declare Scope async_scope.
Delimit Scope async_scope with async.
Notation "'let*' x ':=' m 'in' k" := (bind m (fun x => k))
  (at level 10, x name, m at level 100, k at level 200) : async_scope.
Notation "m '>>' k" := (bind m (fun _ => k))
  (at level 100, k at level 200, right associativity) : async_scope.
Local Open Scope async_scope.

Section Storage.
Context {Node : Type} {env : Env Node}.

(** *** Primitive effects *)

Definition set_this (f : AssetStorage Node -> AssetStorage Node)
  : Async Node unit :=
  fun w => (Returned tt,
            {| this := f (this w); console := console w;
               events := events w; inflight := inflight w |}).

Definition log (l : Log) : Async Node unit :=
  fun w => (Returned tt,
            {| this := this w; console := console w ++ [l];
               events := events w; inflight := inflight w |}).

Definition emit (e : Event) : Async Node unit :=
  fun w => (Returned tt,
            {| this := this w; console := console w;
               events := events w ++ [e]; inflight := inflight w |}).

Definition settle {A} (r : Error + A) : Async Node A :=
  match r with inl e => throw e | inr a => ret a end.

Definition set_ipfs (n : Node) : Async Node unit :=
  set_this (fun t => {| config := config t; _initialized := _initialized t;
                        ipfs := Some n;
                        pinningServices := pinningServices t |}).

Definition push_pinningService (s : string) : Async Node unit :=
  set_this (fun t => {| config := config t; _initialized := _initialized t;
                        ipfs := ipfs t;
                        pinningServices := pinningServices t ++ [s] |}).

Definition set_initialized (b : bool) : Async Node unit :=
  set_this (fun t => {| config := config t; _initialized := b;
                        ipfs := ipfs t;
                        pinningServices := pinningServices t |}).

(** A call [this.ipfs.property...(...)]: a [TypeError] when [this.ipfs]
    is [undefined], and then nothing is called; otherwise the call is
    made, the node answers and moves on. *)
Definition on_ipfs {A} (property : string) (call : Event)
    (op : Node -> (Error + A) * Node) : Async Node A :=
  fun w =>
    match ipfs (this w) with
    | None => (Thrown (reading_undefined property), w)
    | Some n =>
        let '(r, n') := op n in
        (emit call >> set_ipfs n' >> settle r) w
    end.

(** *** [constructor] *)

Definition new_AssetStorage (cfg : AssetStorageConfig.t)
  : AssetStorage Node :=
  {| config := cfg; _initialized := false; ipfs := None;
     pinningServices := [] |}.

(** *** [init] *)

Definition resolve_key (svc : PinningServiceConfig) : Error + string :=
  match accessToken svc with
  | TokenFunction f => f tt
  | TokenString key => inr key
  end.

(** The body of [for (const svc of this.config.pinningServices)]. *)
Fixpoint register (svcs : list PinningServiceConfig) : Async Node unit :=
  match svcs with
  | [] => ret tt
  | svc :: rest =>
      let* key := settle (resolve_key svc) in
      on_ipfs "pin" (EvServiceAdd (name svc) (endpoint svc) key)
              (ipfs_pin_remote_service_add (name svc) (endpoint svc) key) >>
      push_pinningService (name svc) >>
      register rest
  end.

Definition init : Async Node unit :=
  fun w =>
    if _initialized (this w) then (Returned tt, w)
    else
      (let silent := false in
       emit (EvCreate silent) >>
       let* n := settle (IPFS_create silent) in
       set_ipfs n >>
       register (AssetStorageConfig.pinningServices (config (this w))) >>
       set_initialized true) w.

(** *** [get], [getString], [getBase64String] *)

(** [cidOrURI.startsWith] is a method of strings; a [CID] object has no
    such property, and the call of [undefined] is a [TypeError]. *)
Definition get (cidOrURI : Value) : Async Node bytes :=
  match cidOrURI with
  | VCID _ => throw (not_a_function "cidOrURI.startsWith")
  | VString cidOrURI =>
      let cid :=
        if startsWith cidOrURI "ipfs://"
        then slice cidOrURI (String.length "ipfs://")
        else cidOrURI in
      let* chunks := on_ipfs "cat" (EvCat cid) (ipfs_cat cid) in
      ret (uint8ArrayConcat chunks)
  end.

Definition getString (cidOrURI : Value) : Async Node string :=
  let* b := get cidOrURI in
  ret (uint8ArrayToString b Utf8).

Definition getBase64String (cidOrURI : Value) : Async Node string :=
  let* b := get cidOrURI in
  ret (uint8ArrayToString b Base64).

(** *** [pin] *)

(** One call of [_pinIfUnpinned]: it waits for the first answer of the
    listing, then for the pin request, or it has settled. *)
Inductive Task :=
| AwaitLs
| AwaitAdd
| Fulfilled
| Rejected (e : Error).

Record Fan := {
  tasks : list (string * Task);
  node : Node;
  fan_events : list Event;
  fan_console : list Log;
}.

(** [isPinned]: [true] at the first item of the listing, [false] when
    the listing ends without one; a failure of the listing is the failure
    of [isPinned]. *)
Definition isPinned (listing : LsStream) : LsReply :=
  match listing with
  | LsItem _ _ => SaysPinned
  | LsEnd => SaysNotPinned
  | LsFail e => LsFailed e
  end.

(** [_pinIfUnpinned] goes on when the reply that it awaits arrives: the
    answer of [isPinned], after which it returns or sends the pin request
    with [background: false]; then the answer to that request.  The
    result is the next state of the task and of the node, with what was
    exchanged and logged. *)
Definition _pinIfUnpinned (cid : Value) (service : string) (t : Task)
    (n : Node)
  : Task * Node * list Event * list Log :=
  match t with
  | AwaitLs =>
      let '(listing, n') := ipfs_pin_remote_ls cid service n in
      match isPinned listing with
      | SaysPinned =>
          (Fulfilled, n', [EvLsReply cid service SaysPinned],
           [LogAlreadyPinned cid])
      | SaysNotPinned =>
          (AwaitAdd, n',
           [EvLsReply cid service SaysNotPinned; EvPinAdd cid service false],
           [])
      | LsFailed e =>
          (Rejected e, n', [EvLsReply cid service (LsFailed e)], [])
      end
  | AwaitAdd =>
      let '(r, n') := ipfs_pin_remote_add cid service false n in
      match r with
      | inr _ => (Fulfilled, n', [EvPinAddReply cid service None], [])
      | inl e => (Rejected e, n', [EvPinAddReply cid service (Some e)], [])
      end
  | Fulfilled | Rejected _ => (t, n, [], [])
  end.

(** The loop that fills [promises]: every [_pinIfUnpinned] runs up to
    its first [await], so every listing has been asked for. *)
Definition start (cid : Value) (services : list string) (n : Node) : Fan :=
  {| tasks := (fun service => (service, AwaitLs)) <$> services;
     node := n;
     fan_events := EvLs cid <$> services;
     fan_console := [] |}.

Definition is_fulfilled (t : Task) : bool :=
  match t with Fulfilled => true | _ => false end.

Definition is_settled (t : Task) : bool :=
  match t with Fulfilled | Rejected _ => true | _ => false end.

(** The reply awaited by task [i] arrives; nothing happens for a task
    that has settled. *)
Definition step (cid : Value) (i : nat) (f : Fan) : Fan :=
  match tasks f !! i with
  | Some (service, t) =>
      if is_settled t then f
      else
        let '(t', n', evs, lines) := _pinIfUnpinned cid service t (node f) in
        {| tasks := <[i := (service, t')]> (tasks f);
           node := n';
           fan_events := fan_events f ++ evs;
           fan_console := fan_console f ++ lines |}
  | None => f
  end.

(** The state of [Promise.all(promises)]. *)
Inductive PromiseState :=
| AllFulfilled
| SomeRejected (e : Error)
| StillPending.

Fixpoint rejection (ts : list (string * Task)) : option Error :=
  match ts with
  | [] => None
  | (_, Rejected e) :: _ => Some e
  | _ :: rest => rejection rest
  end.

Definition Promise_all (ts : list (string * Task)) : PromiseState :=
  match rejection ts with
  | Some e => SomeRejected e
  | None =>
      if forallb (fun st => is_fulfilled (snd st)) ts
      then AllFulfilled else StillPending
  end.

(** Replies arrive in the order of [schedule] until [Promise.all]
    settles. *)
Fixpoint run (cid : Value) (schedule : list nat) (f : Fan) : Fan :=
  match Promise_all (tasks f) with
  | StillPending =>
      match schedule with
      | [] => f
      | i :: schedule' => run cid schedule' (step cid i f)
      end
  | _ => f
  end.

Definition unsettled (cid : Value) (ts : list (string * Task))
  : list (Value * string) :=
  (fun st => (cid, fst st)) <$>
    filter (fun st => is_settled (snd st) = false) ts.

(** [await Promise.all(promises)] under [try]: the value tells whether
    the [catch] branch is taken. *)
Definition await_all (schedule : list nat) (cid : Value)
  : Async Node (Error + unit) :=
  fun w =>
    match ipfs (this w) with
    | None => (Returned (inl (reading_undefined "pin")), w)
    | Some n =>
        let f := run cid schedule (start cid (pinningServices (this w)) n) in
        let w' :=
          {| this := {| config := config (this w);
                        _initialized := _initialized (this w);
                        ipfs := Some (node f);
                        pinningServices := pinningServices (this w) |};
             console := console w ++ fan_console f;
             events := events w ++ fan_events f;
             inflight := inflight w ++ unsettled cid (tasks f) |} in
        match Promise_all (tasks f) with
        | AllFulfilled => (Returned (inr tt), w')
        | SomeRejected e => (Returned (inl e), w')
        | StillPending => (Pending, w')
        end
    end.

Definition pin (schedule : list nat) (cid : Value) : Async Node unit :=
  init >>
  fun w =>
    if (length (pinningServices (this w)) <? 1)%nat
    then log (LogNoServices cid) w
    else
      (let* r := await_all schedule cid in
       match r with
       | inr _ => log (LogPinned cid)
       | inl e => log (LogPinningError e)
       end) w.

(** *** [addAsset] *)

Definition addAsset (schedule : list nat) (filename : string)
    (assetData : option bytes) : Async Node CID :=
  init >>
  let* assetData :=
    match assetData with
    | None =>
        log (LogReading filename) >>
        emit (EvReadFile filename) >>
        settle (fs_readFile filename)
    | Some data => ret data
    end in
  let* cid := on_ipfs "add" (EvAdd (path_basename filename) assetData)
                      (ipfs_add (path_basename filename) assetData) in
  log (LogAdded cid) >>
  pin schedule cid >>
  ret cid.

(** *** [MakeAssetStorage] *)

Definition new_World (cfg : AssetStorageConfig.t) : World Node :=
  {| this := new_AssetStorage cfg; console := []; events := [];
     inflight := [] |}.

Definition MakeAssetStorage (cfg : AssetStorageConfig.t)
  : Outcome unit * World Node :=
  init (new_World cfg).

End Storage.

Arguments Fan Node : clear implicits.
Arguments tasks {Node} _.
Arguments node {Node} _.
Arguments fan_events {Node} _.
Arguments fan_console {Node} _.

(** ** What the properties say about the node *)

Section NodeProperties.
Context {Node : Type} {env : Env Node}.

(** The node gives [b] back when it is asked for [cid]. *)
Definition serves (n : Node) (cid : string) (b : bytes) : Prop :=
  exists chunks n',
    ipfs_cat cid n = (inr chunks, n') /\ uint8ArrayConcat chunks = b.

(** The node stores what it is given under the identifier it hands out,
    and serves it when it is asked for the text of that identifier; the
    text is a bare identifier and not a URI; and talking to the pinning
    services does not lose what is stored. *)
Record FaithfulNode : Prop := {
  add_serves : forall path b n cid n',
    ipfs_add path b n = (inr cid, n') -> serves n' (CID_toString cid) b;
  add_bare : forall path b n cid n',
    ipfs_add path b n = (inr cid, n') -> bare (CID_toString cid);
  ls_keeps_content : forall c service n cid b,
    serves n cid b ->
    serves (snd (ipfs_pin_remote_ls c service n)) cid b;
  pin_keeps_content : forall c service bg n cid b,
    serves n cid b ->
    serves (snd (ipfs_pin_remote_add c service bg n)) cid b;
}.

(** The listing of [service] has an item for [cid]. *)
Definition listed (cid : Value) (service : string) (n : Node) : Prop :=
  isPinned (fst (ipfs_pin_remote_ls cid service n)) = SaysPinned.

(** A pinning service lists what it has pinned for as long as [pin]
    talks to the services. *)
Record KeepsPins (cid : Value) : Prop := {
  add_lists : forall service n n',
    ipfs_pin_remote_add cid service false n = (inr tt, n') ->
    listed cid service n';
  ls_keeps_listed : forall service service' n,
    listed cid service n ->
    listed cid service (snd (ipfs_pin_remote_ls cid service' n));
  add_keeps_listed : forall service service' n,
    listed cid service n ->
    listed cid service (snd (ipfs_pin_remote_add cid service' false n));
}.

(** The events of [init]: the creation of a node and the registration
    of a service. *)
Definition setup_event (ev : Event) : bool :=
  match ev with
  | EvCreate _ | EvServiceAdd _ _ _ => true
  | _ => false
  end.

(** The registration request that [init] sends for [svc]: none when the
    credential cannot be resolved. *)
Definition attempt (svc : PinningServiceConfig) : list Event :=
  match resolve_key svc with
  | inr key => [EvServiceAdd (name svc) (endpoint svc) key]
  | inl _ => []
  end.

(** The node has accepted the registration of [svc]; the credential or
    the registration of [svc] has failed with [e]. *)
Definition accepted (svc : PinningServiceConfig) : Prop :=
  exists key n n',
    resolve_key svc = inr key /\
    ipfs_pin_remote_service_add (name svc) (endpoint svc) key n =
      (inr tt, n').

Definition refused (svc : PinningServiceConfig) (e : Error) : Prop :=
  resolve_key svc = inl e \/
  exists key n n',
    resolve_key svc = inr key /\
    ipfs_pin_remote_service_add (name svc) (endpoint svc) key n =
      (inl e, n').

(** What a list of events says about the pinning services: the listings
    asked for, the pin requests sent, the services that answered that
    the identifier is not pinned, and the failures they reported. *)
Definition ls_requests (evs : list Event) : list (Value * string) :=
  omap (fun ev => match ev with
                  | EvLs cid service => Some (cid, service)
                  | _ => None
                  end) evs.

Definition pin_requests (evs : list Event)
  : list (Value * string * bool) :=
  omap (fun ev => match ev with
                  | EvPinAdd cid service bg => Some (cid, service, bg)
                  | _ => None
                  end) evs.

Definition unpinned_replies (evs : list Event) : list (Value * string) :=
  omap (fun ev => match ev with
                  | EvLsReply cid service SaysNotPinned => Some (cid, service)
                  | _ => None
                  end) evs.

Definition failure (e : Error) (ev : Event) : Prop :=
  match ev with
  | EvLsReply _ _ (LsFailed e') => e' = e
  | EvPinAddReply _ _ (Some e') => e' = e
  | _ => False
  end.

(** [ev] is an exchange with one of [services] about [cid]. *)
Definition fan_event (cid : Value) (services : list string) (ev : Event)
  : Prop :=
  match ev with
  | EvLs c s | EvLsReply c s _ | EvPinAdd c s _ | EvPinAddReply c s _ =>
      c = cid /\ s ∈ services
  | _ => False
  end.

(** What the replies add to the events: no new listing is asked for,
    one pin request in the foreground follows each answer "not pinned",
    and nothing but [cid] and [services] is talked about. *)
Definition replies_only (cid : Value) (services : list string)
    (evs : list Event) : Prop :=
  ls_requests evs = [] /\
  pin_requests evs =
    (fun cs => (fst cs, snd cs, false)) <$> unpinned_replies evs /\
  Forall (fan_event cid services) evs.

(** The replies that a task still waits for. *)
Definition remaining (t : Task) : nat :=
  match t with
  | AwaitLs => 2
  | AwaitAdd => 1
  | Fulfilled | Rejected _ => 0
  end.

(** The rejected tasks are those whose service reported a failure. *)
Definition failures_recorded (f : Fan Node) : Prop :=
  (forall j s e, tasks f !! j = Some (s, Rejected e) ->
                 Exists (failure e) (fan_events f)) /\
  (forall e, Exists (failure e) (fan_events f) ->
             exists j s, tasks f !! j = Some (s, Rejected e)).


(** [service] lists [cid] and has not answered "not pinned". *)
Definition quiet (cid : Value) (service : string) (f : Fan Node) : Prop :=
  listed cid service (node f) /\
  (cid, service) ∉ unpinned_replies (fan_events f).

(** The services of the fulfilled tasks list [cid]. *)
Definition fulfilled_listed (cid : Value) (f : Fan Node) : Prop :=
  forall j s, tasks f !! j = Some (s, Fulfilled) -> listed cid s (node f).

(** Running [m] in [w] leaves the set-up of the store alone: the
    configuration, the flag and the list of services are the same, a
    node that was there is still there, and no node is created and no
    service registered. *)
Definition same_setup (w w' : World Node) : Prop :=
  config (this w') = config (this w) /\
  _initialized (this w') = _initialized (this w) /\
  pinningServices (this w') = pinningServices (this w) /\
  (is_Some (ipfs (this w)) -> is_Some (ipfs (this w'))) /\
  exists evs, events w' = events w ++ evs /\
              Forall (fun ev => setup_event ev = false) evs.

Definition keeps_setup {A} (m : Async Node A) (w : World Node) : Prop :=
  same_setup w (snd (m w)).

(** Every task gets its two replies from [schedule]. *)
Definition covers (schedule : list nat) (n : nat) : Prop :=
  forall i, i < n -> 2 <= count_occ Nat.eq_dec schedule i.

(** The world once [Promise.all] has settled or stalled in state [f]. *)
Definition after_fan (cid : Value) (w : World Node) (f : Fan Node)
    (lines : list Log) : World Node :=
  {| this := {| config := config (this w);
                _initialized := _initialized (this w);
                ipfs := Some (node f);
                pinningServices := pinningServices (this w) |};
     console := console w ++ fan_console f ++ lines;
     events := events w ++ fan_events f;
     inflight := inflight w ++ unsettled cid (tasks f) |}.

(** Reading [cid] from the node: the part of [get] that follows the
    treatment of the prefix. *)
Definition fetch (cid : string) : Async Node bytes :=
  let* chunks := on_ipfs "cat" (EvCat cid) (ipfs_cat cid) in
  ret (uint8ArrayConcat chunks).

(** The world of [addAsset] after it has logged and read [filename]. *)
Definition reading (filename : string) (w : World Node) : World Node :=
  {| this := this w; console := console w ++ [LogReading filename];
     events := events w ++ [EvReadFile filename]; inflight := inflight w |}.

(** The world after [this.ipfs.add] was called for [b] and left the node
    in [n']; and after the identifier [cid] that it gave was logged. *)
Definition asked (filename : string) (b : bytes) (n' : Node)
    (w : World Node) : World Node :=
  {| this := {| config := config (this w);
                _initialized := _initialized (this w);
                ipfs := Some n';
                pinningServices := pinningServices (this w) |};
     console := console w;
     events := events w ++ [EvAdd (path_basename filename) b];
     inflight := inflight w |}.

Definition added (filename : string) (b : bytes) (cid : CID) (n' : Node)
    (w : World Node) : World Node :=
  {| this := this (asked filename b n' w);
     console := console w ++ [LogAdded cid];
     events := events (asked filename b n' w);
     inflight := inflight w |}.

(** The world after the creation of the node was tried. *)
Definition tried_create (w : World Node) : World Node :=
  {| this := this w; console := console w;
     events := events w ++ [EvCreate false]; inflight := inflight w |}.

(** No service has answered "not pinned" twice, and none of those whose
    listing is still awaited has answered it. *)
Definition once_each (cid : Value) (f : Fan Node) : Prop :=
  NoDup (unpinned_replies (fan_events f)) /\
  forall i s, tasks f !! i = Some (s, AwaitLs) ->
              (cid, s) ∉ unpinned_replies (fan_events f).

End NodeProperties.

(** ** A node in memory

    A small node used to run the store on concrete inputs.  It names a
    block by the [CID] whose text is [Qm] followed by the bytes of the
    block, and takes an identifier, in a request to a pinning service, by
    its text.  It refuses a service without endpoint or with a name
    already taken, and a service registered with an empty key refuses
    every request. *)

Module MemNode.

Record t := {
  services : list (string * string);
  blocks : list (string * bytes);
  pins : list (string * string);
}.

Definition empty : t := {| services := []; blocks := []; pins := [] |}.

Fixpoint assoc {A} (k : string) (l : list (string * A)) : option A :=
  match l with
  | [] => None
  | (k', v) :: rest => if String.eqb k k' then Some v else assoc k rest
  end.

(** The text of an identifier: the string itself, or [toString] of the
    object. *)
Definition text (cid : Value) : string :=
  match cid with
  | VString s => s
  | VCID c => CID_toString c
  end.

Definition has_pin (cid service : string) (n : t) : bool :=
  existsb (fun p => String.eqb cid (fst p) && String.eqb service (snd p))
          (pins n).

Definition cid_of (content : bytes) : string :=
  "Qm" +:+ String.string_of_list_byte content.

Definition service_add (name endpoint key : string) (n : t)
  : (Error + unit) * t :=
  if String.eqb endpoint "" then (inl (LibError "invalid endpoint"), n)
  else match assoc name (services n) with
       | Some _ => (inl (LibError "service already present"), n)
       | None =>
           (inr tt, {| services := services n ++ [(name, key)];
                       blocks := blocks n; pins := pins n |})
       end.

Definition add (path : string) (content : bytes) (n : t)
  : (Error + CID) * t :=
  let cid := cid_of content in
  (inr {| CID_toString := cid |},
   {| services := services n;
      blocks := (cid, content) :: blocks n; pins := pins n |}).

Definition authorised (service : string) (n : t) : Error + unit :=
  match assoc service (services n) with
  | None => inl (LibError "service not known")
  | Some key =>
      if String.eqb key "" then inl (LibError "unauthorized") else inr tt
  end.

Definition remote_ls (cid : Value) (service : string) (n : t)
  : LsStream * t :=
  match authorised service n with
  | inl e => (LsFail e, n)
  | inr _ =>
      if has_pin (text cid) service n
      then (LsItem (text cid) LsEnd, n) else (LsEnd, n)
  end.

Definition remote_add (cid : Value) (service : string) (background : bool)
    (n : t) : (Error + unit) * t :=
  match authorised service n with
  | inl e => (inl e, n)
  | inr _ =>
      (inr tt, {| services := services n; blocks := blocks n;
                  pins := (text cid, service) :: pins n |})
  end.

Definition cat (cid : string) (n : t) : (Error + list bytes) * t :=
  match assoc cid (blocks n) with
  | Some content => (inr [content], n)
  | None => (inl (LibError "not found"), n)
  end.

Definition readFile (filename : string) : Error + bytes :=
  if String.eqb filename "cat.png"
  then inr [x89; x50; x4e; x47]%byte
  else inl (LibError "ENOENT").

(** [path.basename] of POSIX: the slashes at the end do not count, and
    what stands after the last of the other slashes is kept. *)
Definition is_slash (c : Ascii.ascii) : bool :=
  Ascii.eqb c (Ascii.ascii_of_nat 47).

Fixpoint drop_slashes (l : list Ascii.ascii) : list Ascii.ascii :=
  match l with
  | [] => []
  | c :: rest => if is_slash c then drop_slashes rest else l
  end.

Fixpoint until_slash (l : list Ascii.ascii) : list Ascii.ascii :=
  match l with
  | [] => []
  | c :: rest => if is_slash c then [] else c :: until_slash rest
  end.

Definition basename (s : string) : string :=
  String.string_of_list_ascii
    (rev (until_slash (drop_slashes (rev (String.list_ascii_of_string s))))).

(** [uint8ArrayToString] without encoding decodes UTF-8 as [TextDecoder]
    does.  A string of the model holds the UTF-8 form of the JavaScript
    string, so the well-formed sequences are kept as they are; every
    ill-formed part becomes U+FFFD, and a byte order mark at the start is
    left out. *)
Definition replacement : bytes := [xef; xbf; xbd]%byte.

(** What the first byte of a sequence announces: how many bytes follow,
    and the bounds of the next one. *)
Definition lead (x : N) : option (nat * N * N) :=
  if (x <=? 127)%N then Some (0, 128%N, 191%N)
  else if ((194 <=? x) && (x <=? 223))%N then Some (1, 128%N, 191%N)
  else if ((224 <=? x) && (x <=? 239))%N
  then Some (2, if (x =? 224)%N then 160%N else 128%N,
                if (x =? 237)%N then 159%N else 191%N)
  else if ((240 <=? x) && (x <=? 244))%N
  then Some (3, if (x =? 240)%N then 144%N else 128%N,
                if (x =? 244)%N then 143%N else 191%N)
  else None.

Fixpoint utf8 (seen : bytes) (needed : nat) (lower upper : N) (b : bytes)
  : bytes :=
  match b with
  | [] => match needed with 0 => [] | S _ => replacement end
  | x :: rest =>
      let first :=
        match lead (Byte.to_N x) with
        | Some (0, _, _) => x :: utf8 [] 0 128%N 191%N rest
        | Some (k, lo, hi) => utf8 [x] k lo hi rest
        | None => replacement ++ utf8 [] 0 128%N 191%N rest
        end in
      match needed with
      | 0 => first
      | S k =>
          if ((lower <=? Byte.to_N x) && (Byte.to_N x <=? upper))%N
          then match k with
               | 0 => seen ++ x :: utf8 [] 0 128%N 191%N rest
               | S _ => utf8 (seen ++ [x]) k 128%N 191%N rest
               end
          else replacement ++ first
      end
  end.

Definition drop_BOM (b : bytes) : bytes :=
  match b with
  | xef :: xbb :: xbf :: rest => rest
  | _ => b
  end%byte.

Definition utf8_decode (b : bytes) : string :=
  String.string_of_list_byte (drop_BOM (utf8 [] 0 128%N 191%N b)).

(** With ['base64'] it gives the base64 form in the standard alphabet,
    without padding. *)
Definition base64_digit (n : N) : string :=
  match String.get (N.to_nat n)
          "ABCDEFGHIJKLMNOPQRSTUVWXYZabcdefghijklmnopqrstuvwxyz0123456789+/"
  with
  | Some c => String c ""
  | None => ""
  end.

Fixpoint base64 (b : bytes) : string :=
  match b with
  | [] => ""
  | [x] =>
      let n := Byte.to_N x in
      base64_digit (n / 4) +:+ base64_digit (n mod 4 * 16)
  | [x; y] =>
      let n := (Byte.to_N x * 256 + Byte.to_N y)%N in
      base64_digit (n / 1024) +:+ base64_digit (n / 16 mod 64) +:+
      base64_digit (n mod 16 * 4)
  | x :: y :: z :: rest =>
      let n := (Byte.to_N x * 65536 + Byte.to_N y * 256 + Byte.to_N z)%N in
      base64_digit (n / 262144) +:+ base64_digit (n / 4096 mod 64) +:+
      base64_digit (n / 64 mod 64) +:+ base64_digit (n mod 64) +:+
      base64 rest
  end%N.

Definition toString (b : bytes) (enc : Encoding) : string :=
  match enc with
  | Utf8 => utf8_decode b
  | Base64 => base64 b
  end.

Definition env : Env t :=
  {| IPFS_create := fun _ => inr empty;
     ipfs_pin_remote_service_add := service_add;
     ipfs_add := add;
     ipfs_pin_remote_ls := remote_ls;
     ipfs_pin_remote_add := remote_add;
     ipfs_cat := cat;
     fs_readFile := readFile;
     path_basename := basename;
     uint8ArrayToString := toString |}.

Definition service (name key : string) : PinningServiceConfig :=
  {| name := name; endpoint := "https://" +:+ name +:+ ".example";
     accessToken := TokenString key |}.

Definition lazy (name key : string) : PinningServiceConfig :=
  {| name := name; endpoint := "https://" +:+ name +:+ ".example";
     accessToken := TokenFunction (fun _ => inr key) |}.

Definition cfg (l : list PinningServiceConfig) : AssetStorageConfig.t :=
  {| AssetStorageConfig.pinningServices := l |}.

(** The store that [MakeAssetStorage] gives for [l]. *)
Definition made (l : list PinningServiceConfig) : World t :=
  snd (MakeAssetStorage (env := env) (cfg l)).

Definition hello : bytes := [x68; x69]%byte.

(** The identifier that the node gives for [hello]. *)
Definition hello_cid : CID := {| CID_toString := "Qmhi" |}.

(** Two services in order; the same with an empty key for the first;
    and a service without endpoint between them. *)
Definition two : list PinningServiceConfig :=
  [service "A" "k1"; lazy "B" "k2"].

Definition first_refuses : list PinningServiceConfig :=
  [service "A" ""; service "B" "k2"].

Definition second_invalid : list PinningServiceConfig :=
  [service "A" "k1";
   {| name := "bad"; endpoint := ""; accessToken := TokenString "k" |};
   service "B" "k2"].

(** The store made without services, after [hello] was added. *)
Definition stored : World t :=
  snd (addAsset (env := env) [] "img/cat.png" (Some hello) (made [])).

(** The same node where no node can be created, and where the node has
    no room for more data. *)
Definition offline : Env t :=
  {| IPFS_create := fun _ => inl (LibError "repo locked");
     ipfs_pin_remote_service_add := service_add;
     ipfs_add := add;
     ipfs_pin_remote_ls := remote_ls;
     ipfs_pin_remote_add := remote_add;
     ipfs_cat := cat;
     fs_readFile := readFile;
     path_basename := basename;
     uint8ArrayToString := toString |}.

Definition full : Env t :=
  {| IPFS_create := fun _ => inr empty;
     ipfs_pin_remote_service_add := service_add;
     ipfs_add := fun _ _ n => (inl (LibError "no space"), n);
     ipfs_pin_remote_ls := remote_ls;
     ipfs_pin_remote_add := remote_add;
     ipfs_cat := cat;
     fs_readFile := readFile;
     path_basename := basename;
     uint8ArrayToString := toString |}.

End MemNode.

(** * Properties *)

(** ** Strings *)

Lemma substring_all (s : string) : String.substring 0 (String.length s) s = s.
Proof. induction s as [|c s IH]; simpl; [reflexivity | by rewrite IH]. Qed.

Lemma startsWith_app (p x : string) : startsWith (p +:+ x) p = true.
Proof.
  unfold startsWith. induction p as [|c p IH]; simpl.
  - by destruct x.
  - destruct (Ascii.ascii_dec c c); [exact IH | congruence].
Qed.

Lemma slice_app (p x : string) : slice (p +:+ x) (String.length p) = x.
Proof.
  unfold slice. induction p as [|c p IH]; simpl.
  - rewrite Nat.sub_0_r. apply substring_all.
  - exact IH.
Qed.

Lemma app_same_nil {A} (l k : list A) : l = l ++ k -> k = [].
Proof. intros H. apply (app_inv_head l). by rewrite app_nil_r. Qed.

Section Facts.
Context {Node : Type} {env : Env Node}.

(** ** [get] *)

Lemma get_fetch (cidOrURI : string) :
  get cidOrURI =
  fetch (if startsWith cidOrURI "ipfs://"
         then slice cidOrURI (String.length "ipfs://") else cidOrURI).
Proof. reflexivity. Qed.

Lemma get_prefixed (x : string) : get ("ipfs://" +:+ x) = fetch x.
Proof.
  rewrite get_fetch, (startsWith_app "ipfs://" x).
  by rewrite (slice_app "ipfs://" x).
Qed.

Lemma get_bare (x : string) : bare x -> get x = fetch x.
Proof. unfold bare. intros H. by rewrite get_fetch, H. Qed.

(** C10. [get] removes the literal prefix [ipfs://], only at the very
    start of its argument and only once: [get "ipfs://ipfs://X"] reads
    the identifier [ipfs://X], an argument with another scheme such as
    [https://X] is read as it is, and so is every argument that does not
    start with [ipfs://]. *)
Theorem get_strips_one_leading_prefix (x : string) :
  get ("ipfs://ipfs://" +:+ x) = fetch ("ipfs://" +:+ x) /\
  get ("https://" +:+ x) = fetch ("https://" +:+ x) /\
  get ("ipfs://" +:+ x) = fetch x /\
  (forall u, bare u -> get u = fetch u).
Proof.
  split; [|split; [|split]].
  - change ("ipfs://ipfs://" +:+ x) with ("ipfs://" +:+ ("ipfs://" +:+ x)).
    apply get_prefixed.
  - reflexivity.
  - exact (get_prefixed x).
  - exact get_bare.
Qed.

(** C5. For every bare identifier [x], [get] of the URI [ipfs://x] and
    [get] of [x] itself both read the identifier [x] from the node: one
    call of [cat] for [x], whose chunks are put together.  So they are
    the same computation and resolve to the same content: the prefix is
    removed where it is present, and the whole string is the identifier
    where it is not. *)
Theorem get_uri_tolerance (x : string) :
  bare x ->
  get ("ipfs://" +:+ x) = fetch x /\
  get x = fetch x /\
  get ("ipfs://" +:+ x) = get x.
Proof.
  intros H. rewrite get_prefixed, (get_bare x H). done.
Qed.

(** ** [init] *)

Lemma init_initialized (w : World Node) :
  _initialized (this w) = true -> init w = (Returned tt, w).
Proof. intros H. unfold init. by rewrite H. Qed.

Lemma register_spec (svcs : list PinningServiceConfig) :
  forall (w w' : World Node) (o : Outcome unit),
    is_Some (ipfs (this w)) ->
    register svcs w = (o, w') ->
    config (this w') = config (this w) /\
    _initialized (this w') = _initialized (this w) /\
    is_Some (ipfs (this w')) /\
    console w' = console w /\
    inflight w' = inflight w /\
    exists done rest,
      svcs = done ++ rest /\
      Forall accepted done /\
      pinningServices (this w') = pinningServices (this w) ++ map name done /\
      ((rest = [] /\ o = Returned tt /\
        events w' = events w ++ concat (map attempt done)) \/
       (exists svc rest' e,
          rest = svc :: rest' /\ o = Thrown e /\ refused svc e /\
          events w' = events w ++ concat (map attempt (done ++ [svc])))).
Proof.
  induction svcs as [|svc svcs IH]; intros w w' o [n Hn] Hreg; simpl in Hreg.
  - unfold ret in Hreg. simplify_eq. repeat split; eauto.
    exists [], []. simpl. rewrite !app_nil_r. repeat split; eauto.
  - unfold bind at 1 in Hreg. unfold settle in Hreg.
    destruct (resolve_key svc) as [e|key] eqn:Hkey; simpl in Hreg.
    + simplify_eq. repeat split; eauto. exists [], (svc :: svcs). simpl.
      rewrite app_nil_r. repeat split; eauto. right.
      exists svc, svcs, e. unfold attempt. rewrite Hkey. simpl.
      rewrite ?app_nil_r. repeat split; eauto. by left.
    + unfold bind at 1 in Hreg. unfold on_ipfs in Hreg.
      rewrite Hn in Hreg.
      destruct (ipfs_pin_remote_service_add (name svc) (endpoint svc) key n)
        as [[e|[]] n'] eqn:Hadd; simpl in Hreg.
      * simplify_eq. simpl. repeat split; eauto. exists [], (svc :: svcs).
        simpl. rewrite app_nil_r. repeat split; eauto. right.
        exists svc, svcs, e. unfold attempt. rewrite Hkey. simpl.
        rewrite ?app_nil_r. repeat split; eauto. right. eauto 6.
      * unfold bind at 1 in Hreg. simpl in Hreg.
        apply IH in Hreg; [|simpl; eauto].
        destruct Hreg as (Hc & Hi & Hs & Hcon & Hinf & done & rest & ->
                          & Hdone & Hsvcs & Hev).
        simpl in *. repeat split; eauto.
        exists (svc :: done), rest. simpl.
        split; [done|].
        split; [constructor; [by exists key, n, n'|done]|].
        split; [by rewrite Hsvcs, <- app_assoc|].
        unfold attempt at 1 3. rewrite Hkey. simpl.
        destruct Hev
          as [(-> & Hr & Hev)|(svc' & rest' & e & -> & Hr & Href & Hev)].
        -- left. repeat split; eauto. by rewrite Hev, <- app_assoc.
        -- right. exists svc', rest', e. repeat split; eauto.
           by rewrite Hev, <- app_assoc.
Qed.

(** C8, amended. During initialization the configured services are
    taken in order: the credential is resolved ([resolve_key]: the
    function is called when it is one, the string is used otherwise),
    the registration request is sent, and the name is appended to
    [pinningServices] once the node has accepted it.  The first service
    whose credential or registration fails ends [init] with that error:
    no request is sent for the services after it, and the store stays
    uninitialized. *)
Theorem init_registers_until_first_failure
    (w w' : World Node) (o : Outcome unit) (n0 : Node) :
  _initialized (this w) = false ->
  IPFS_create false = inr n0 ->
  init w = (o, w') ->
  (forall svc key,
     accessToken svc = TokenString key -> resolve_key svc = inr key) /\
  (forall svc f,
     accessToken svc = TokenFunction f -> resolve_key svc = f tt) /\
  exists done rest,
    AssetStorageConfig.pinningServices (config (this w)) = done ++ rest /\
    Forall accepted done /\
    pinningServices (this w') = pinningServices (this w) ++ map name done /\
    ((rest = [] /\ o = Returned tt /\ _initialized (this w') = true /\
      events w' = events w ++ EvCreate false :: concat (map attempt done)) \/
     (exists svc rest' e,
        rest = svc :: rest' /\ o = Thrown e /\ refused svc e /\
        _initialized (this w') = false /\
        events w' =
          events w ++ EvCreate false :: concat (map attempt (done ++ [svc])))).
Proof.
  intros Hini Hcreate Hinit.
  split; [by intros svc key H; unfold resolve_key; rewrite H|].
  split; [by intros svc f H; unfold resolve_key; rewrite H|].
  unfold init in Hinit. rewrite Hini in Hinit.
  unfold bind at 1 in Hinit. simpl in Hinit.
  unfold bind at 1 in Hinit. rewrite Hcreate in Hinit. simpl in Hinit.
  unfold bind at 1 in Hinit. simpl in Hinit.
  unfold bind at 1 in Hinit.
  match type of Hinit with
  | context [register ?l ?w2] =>
      destruct (register l w2) as [o2 w2'] eqn:Hreg
  end.
  apply register_spec in Hreg; [|simpl; eauto].
  destruct Hreg as (Hc & Hi & Hs & Hcon & Hinf & done & rest & Hcfg & Hdone
                    & Hsvcs & Hev).
  simpl in *. exists done, rest. split; [done|]. split; [done|].
  destruct Hev
    as [(-> & -> & Hev)|(svc & rest' & e & -> & -> & Href & Hev)];
    simpl in Hinit; unfold set_initialized, set_this in Hinit;
    simplify_eq; simpl.
  - split; [done|]. left. repeat split; eauto.
    by rewrite Hev, <- app_assoc.
  - split; [done|]. right. exists svc, rest', e.
    repeat split; eauto; try congruence. by rewrite Hev, <- app_assoc.
Qed.

(** Once [init] has returned the store is initialized, and it has a
    node when it had one or was not initialized before. *)
Lemma init_returned (w w' : World Node) :
  init w = (Returned tt, w') ->
  _initialized (this w') = true /\
  (_initialized (this w) = false \/ is_Some (ipfs (this w)) ->
   is_Some (ipfs (this w'))).
Proof.
  intros Hinit. destruct (_initialized (this w)) eqn:Hini.
  - rewrite (init_initialized w Hini) in Hinit. simplify_eq.
    split; [done|]. by intros [|].
  - unfold init in Hinit. rewrite Hini in Hinit.
    unfold bind at 1 in Hinit. simpl in Hinit.
    unfold bind at 1 in Hinit.
    destruct (IPFS_create false) as [e|n0]; simpl in Hinit; [done|].
    unfold bind at 1 in Hinit. simpl in Hinit.
    unfold bind at 1 in Hinit.
    match type of Hinit with
    | context [register ?l ?w2] =>
        destruct (register l w2) as [o2 w2'] eqn:Hreg
    end.
    apply register_spec in Hreg; [|simpl; eauto].
    destruct Hreg as (Hc & Hi & Hs & _).
    destruct o2; simpl in Hinit; unfold set_initialized, set_this in Hinit;
      simplify_eq. simpl. done.
Qed.

(** ** [pin] without services *)

Lemma pin_no_services (schedule : list nat) (cid : Value)
    (w w1 : World Node) :
  init w = (Returned tt, w1) ->
  pinningServices (this w1) = [] ->
  pin schedule cid w =
    (Returned tt,
     {| this := this w1; console := console w1 ++ [LogNoServices cid];
        events := events w1; inflight := inflight w1 |}).
Proof.
  intros Hinit Hnone. unfold pin, bind. rewrite Hinit, Hnone. reflexivity.
Qed.

(** C6. When no pinning service is registered once the initialization
    that [pin] awaits has completed, [pin] returns normally: it writes
    one line to the console and does nothing else. *)
Theorem pin_without_services (schedule : list nat) (cid : Value)
    (w w1 : World Node) :
  init w = (Returned tt, w1) ->
  pinningServices (this w1) = [] ->
  pin schedule cid w =
    (Returned tt,
     {| this := this w1; console := console w1 ++ [LogNoServices cid];
        events := events w1; inflight := inflight w1 |}).
Proof. apply pin_no_services. Qed.

(** ** The tasks of [pin] *)

Lemma run_preserves (P : Fan Node -> Prop) (cid : Value) :
  (forall i f, P f -> P (step cid i f)) ->
  forall schedule f, P f -> P (run cid schedule f).
Proof.
  intros Hstep schedule.
  induction schedule as [|i schedule IH]; intros f Hf; simpl;
    destruct (Promise_all (tasks f)); auto.
Qed.

Ltac step_cases cid i f :=
  unfold step, _pinIfUnpinned;
  destruct (tasks f !! i) as [[?s [| | |?e]]|] eqn:?Hi;
  [ destruct (ipfs_pin_remote_ls cid s (node f)) as [[|?r ?rest|?e] ?n']
      eqn:?Hls
  | destruct (ipfs_pin_remote_add cid s false (node f)) as [[?e|?u] ?n']
      eqn:?Hadd
  | | | ]; simpl.

(** A reply moves its task forward, or finds it settled. *)
Lemma step_tasks (cid : Value) (i : nat) (f : Fan Node) :
  match tasks f !! i with
  | Some (s, t) =>
      exists t', tasks (step cid i f) = <[i := (s, t')]> (tasks f) /\
                 (remaining t' < remaining t \/ t' = t /\ remaining t = 0)
  | None => tasks (step cid i f) = tasks f
  end.
Proof.
  step_cases cid i f; try done.
  all: try (eexists; (split; [reflexivity|]); simpl; lia).
  - exists Fulfilled. split; [by rewrite list_insert_id|]. by right.
  - exists (Rejected e). split; [by rewrite list_insert_id|]. by right.
Qed.

Lemma step_services (cid : Value) (i : nat) (f : Fan Node) :
  fst <$> tasks (step cid i f) = fst <$> tasks f.
Proof.
  pose proof (step_tasks cid i f) as H.
  destruct (tasks f !! i) as [[s t]|] eqn:Hi; [|by rewrite H].
  destruct H as (t' & -> & _).
  rewrite list_fmap_insert. simpl. apply list_insert_id.
  by rewrite list_lookup_fmap, Hi.
Qed.

Lemma run_services (cid : Value) (schedule : list nat) (f : Fan Node) :
  fst <$> tasks (run cid schedule f) = fst <$> tasks f.
Proof.
  apply (run_preserves (fun f' => fst <$> tasks f' = fst <$> tasks f));
    [|done].
  intros i f' <-. apply step_services.
Qed.

Lemma start_services (cid : Value) (services : list string) (n : Node) :
  fst <$> tasks (start cid services n) = services.
Proof.
  simpl. rewrite <- list_fmap_compose. by rewrite list_fmap_id.
Qed.

Lemma replies_only_nil (cid : Value) (services : list string) :
  replies_only cid services [].
Proof. by repeat split. Qed.

Lemma replies_only_app (cid : Value) (services : list string)
    (evs1 evs2 : list Event) :
  replies_only cid services evs1 -> replies_only cid services evs2 ->
  replies_only cid services (evs1 ++ evs2).
Proof.
  unfold replies_only, ls_requests, pin_requests, unpinned_replies.
  intros (H1 & H2 & H3) (H1' & H2' & H3').
  rewrite !omap_app, fmap_app, H1, H1', H2, H2'.
  split; [done|]. split; [done|]. by apply Forall_app.
Qed.

Lemma step_trace (cid : Value) (i : nat) (f : Fan Node) :
  exists new,
    fan_events (step cid i f) = fan_events f ++ new /\
    replies_only cid (fst <$> tasks f) new.
Proof.
  assert (Hin : forall s t, tasks f !! i = Some (s, t) ->
                            s ∈ fst <$> tasks f).
  { intros s t Hi. apply list_elem_of_fmap. exists (s, t).
    split; [done|]. apply list_elem_of_lookup. eauto. }
  step_cases cid i f;
    try (exists []; rewrite app_nil_r; split;
         [done | apply replies_only_nil]);
    eexists; (split; [reflexivity|]);
    repeat split; repeat constructor; eauto.
Qed.

Lemma run_trace (cid : Value) (schedule : list nat) (f : Fan Node) :
  exists new,
    fan_events (run cid schedule f) = fan_events f ++ new /\
    replies_only cid (fst <$> tasks f) new.
Proof.
  refine (proj2 (run_preserves
           (fun f' => fst <$> tasks f' = fst <$> tasks f /\
                      exists new,
                        fan_events f' = fan_events f ++ new /\
                        replies_only cid (fst <$> tasks f) new) cid
           _ schedule f _)).
  - intros i f' (Hs & new & Hev & Hnew).
    split; [by rewrite step_services|].
    destruct (step_trace cid i f') as (new' & Hev' & Hnew').
    exists (new ++ new'). split; [by rewrite Hev', Hev, app_assoc|].
    apply replies_only_app; [done|]. by rewrite <- Hs.
  - split; [done|]. exists []. split; [by rewrite app_nil_r|].
    apply replies_only_nil.
Qed.

(** *** [Promise.all] *)

Lemma rejection_Some (ts : list (string * Task)) (e : Error) :
  rejection ts = Some e -> exists i s, ts !! i = Some (s, Rejected e).
Proof.
  induction ts as [|[s t] ts IH]; simpl; [done|].
  destruct t; try (intros H; destruct (IH H) as (i & s' & Hi);
                   by exists (S i), s').
  intros [= ->]. by exists 0, s.
Qed.

Lemma rejection_None (ts : list (string * Task)) :
  rejection ts = None -> forall i s e, ts !! i <> Some (s, Rejected e).
Proof.
  induction ts as [|[s t] ts IH]; simpl; [by intros _ []|].
  intros H [|i] s' e'; simpl.
  - destruct t; congruence.
  - apply IH. by destruct t.
Qed.

Lemma Promise_all_fulfilled (ts : list (string * Task)) :
  Promise_all ts = AllFulfilled <->
  Forall (fun st => snd st = Fulfilled) ts.
Proof.
  unfold Promise_all. split.
  - destruct (rejection ts); [done|].
    destruct (forallb _ ts) eqn:Hall; [|done]. intros _.
    apply Is_true_true, forallb_True in Hall.
    eapply Forall_impl; [exact Hall|]. intros [s []]; by simpl.
  - intros Hall.
    assert (rejection ts = None) as ->.
    { induction Hall as [|[s t] ts Ht _ IH]; simpl in *; [done|].
      by rewrite Ht. }
    assert (forallb (fun st => is_fulfilled (snd st)) ts = true) as ->;
      [|done].
    apply Is_true_true, forallb_True.
    eapply Forall_impl; [exact Hall|]. by intros [s t]; simpl; intros ->.
Qed.

Lemma Promise_all_rejected (ts : list (string * Task)) (e : Error) :
  Promise_all ts = SomeRejected e ->
  exists i s, ts !! i = Some (s, Rejected e).
Proof.
  unfold Promise_all. destruct (rejection ts) as [e'|] eqn:Hrej.
  - intros [= ->]. by apply rejection_Some.
  - by destruct (forallb _ ts).
Qed.

Lemma Promise_all_pending (ts : list (string * Task)) :
  Promise_all ts = StillPending ->
  (forall i s e, ts !! i <> Some (s, Rejected e)) /\
  exists i s t, ts !! i = Some (s, t) /\ 0 < remaining t.
Proof.
  unfold Promise_all. destruct (rejection ts) as [e'|] eqn:Hrej; [done|].
  destruct (forallb _ ts) eqn:Hall; [done|]. intros _.
  split; [by apply rejection_None|].
  revert Hrej Hall. induction ts as [|[s t] ts IH]; simpl; [done|].
  destruct t; simpl; intros Hrej Hall; try done.
  - exists 0, s, AwaitLs. simpl. split; [done|lia].
  - exists 0, s, AwaitAdd. simpl. split; [done|lia].
  - destruct (IH Hrej Hall) as (i & s' & t' & Hi & Hpos).
    by exists (S i), s', t'.
Qed.


(** Replies for every task settle [Promise.all]. *)
Lemma run_settles (cid : Value) (schedule : list nat) :
  forall f : Fan Node,
    (forall i s t, tasks f !! i = Some (s, t) ->
                   remaining t <= count_occ Nat.eq_dec schedule i) ->
    Promise_all (tasks (run cid schedule f)) <> StillPending.
Proof.
  induction schedule as [|i schedule IH]; intros f Hleft; simpl.
  - destruct (Promise_all (tasks f)) eqn:Hall; try congruence.
    apply Promise_all_pending in Hall as (_ & j & s & t & Hj & Hpos).
    apply Hleft in Hj. simpl in Hj. lia.
  - destruct (Promise_all (tasks f)) eqn:Hall; try congruence.
    apply IH. intros j s t Hj.
    pose proof (step_tasks cid i f) as Hstep.
    destruct (tasks f !! i) as [[si ti]|] eqn:Hi.
    + destruct Hstep as (t' & Htasks & Hless). rewrite Htasks in Hj.
      apply list_lookup_insert_Some in Hj
        as [(<- & Heq & _)|(Hne & Hj)].
      * simplify_eq. apply Hleft in Hi.
        rewrite count_occ_cons_eq in Hi by done.
        destruct Hless as [Hless|[-> Hless]]; lia.
      * apply Hleft in Hj.
        by rewrite count_occ_cons_neq in Hj.
    + rewrite Hstep in Hj. pose proof (Hleft _ _ _ Hj) as Hc.
      destruct (decide (i = j)) as [->|Hne].
      * congruence.
      * by rewrite count_occ_cons_neq in Hc.
Qed.

Lemma start_covered (cid : Value) (services : list string) (n : Node)
    (schedule : list nat) :
  covers schedule (length services) ->
  forall i s t, tasks (start cid services n) !! i = Some (s, t) ->
                remaining t <= count_occ Nat.eq_dec schedule i.
Proof.
  intros Hcov i s t Hi. simpl in Hi.
  rewrite list_lookup_fmap in Hi.
  destruct (services !! i) as [s'|] eqn:Hs; simpl in Hi; [|done].
  simplify_eq. simpl. apply Hcov. by eapply lookup_lt_Some.
Qed.

(** *** Failures *)

Lemma step_failures (cid : Value) (i : nat) (f : Fan Node) :
  failures_recorded f -> failures_recorded (step cid i f).
Proof.
  unfold failures_recorded. intros [H1 H2].
  step_cases cid i f; try (by split).
  all: split;
    [ intros j s' e' Hj;
      apply list_lookup_insert_Some in Hj as [(<- & Heq & _)|(Hne & Hj)];
      [ simplify_eq;
        try (apply Exists_app; right; apply Exists_cons; by left)
      | apply Exists_app; left; eauto ]
    | intros e' Hex;
      apply Exists_app in Hex as [Hex|Hex];
      [ destruct (H2 _ Hex) as (j & s' & Hj); exists j, s';
        rewrite list_lookup_insert_ne; [done | intros ->; congruence]
      | repeat (apply Exists_cons in Hex as [Hex|Hex]);
        try (by apply Exists_nil in Hex); simpl in Hex; try done;
        subst; exists i, s; apply list_lookup_insert_eq;
        by eapply lookup_lt_Some ] ].
Qed.

Lemma start_failures (cid : Value) (services : list string) (n : Node) :
  failures_recorded (start cid services n).
Proof.
  split; simpl.
  - intros j s e Hj. rewrite list_lookup_fmap in Hj.
    by destruct (services !! j).
  - intros e Hex. apply Exists_exists in Hex as (ev & Hin & Hev).
    apply list_elem_of_fmap in Hin as (s & -> & _). done.
Qed.

Lemma run_failures (cid : Value) (schedule : list nat) (f : Fan Node) :
  failures_recorded f -> failures_recorded (run cid schedule f).
Proof. apply run_preserves. intros i f'. apply step_failures. Qed.




(** *** [pin] with services *)

Lemma pin_spec (schedule : list nat) (cid : Value)
    (w w1 : World Node) (n : Node) :
  init w = (Returned tt, w1) ->
  ipfs (this w1) = Some n ->
  pinningServices (this w1) <> [] ->
  let f := run cid schedule (start cid (pinningServices (this w1)) n) in
  pin schedule cid w =
    match Promise_all (tasks f) with
    | AllFulfilled => (Returned tt, after_fan cid w1 f [LogPinned cid])
    | SomeRejected e =>
        (Returned tt, after_fan cid w1 f [LogPinningError e])
    | StillPending => (Pending, after_fan cid w1 f [])
    end.
Proof.
  intros Hinit Hn Hsvcs f. unfold pin, bind at 1. rewrite Hinit.
  destruct (pinningServices (this w1)) as [|s svcs] eqn:Hs; [done|].
  simpl. unfold bind, await_all. rewrite Hn, Hs. fold f.
  unfold after_fan. rewrite Hs.
  destruct (Promise_all (tasks f)); simpl; unfold log; simpl;
    rewrite <- ?app_assoc, ?app_nil_r; reflexivity.
Qed.

Lemma pin_no_node (schedule : list nat) (cid : Value)
    (w w1 : World Node) :
  init w = (Returned tt, w1) ->
  ipfs (this w1) = None ->
  pinningServices (this w1) <> [] ->
  pin schedule cid w =
    (Returned tt,
     {| this := this w1;
        console := console w1 ++
          [LogPinningError (reading_undefined "pin")];
        events := events w1; inflight := inflight w1 |}).
Proof.
  intros Hinit Hn Hsvcs. unfold pin, bind at 1. rewrite Hinit.
  destruct (pinningServices (this w1)) as [|s svcs] eqn:Hs; [done|].
  simpl. unfold bind, await_all. by rewrite Hn.
Qed.

Lemma start_requests (cid : Value) (services : list string) :
  ls_requests (EvLs cid <$> services) = (fun s => (cid, s)) <$> services /\
  pin_requests (EvLs cid <$> services) = [] /\
  unpinned_replies (EvLs cid <$> services) = [].
Proof.
  unfold ls_requests, pin_requests, unpinned_replies.
  induction services as [|s services (IH1 & IH2 & IH3)]; [done|].
  split; [|split]; simpl; [f_equal; exact IH1 | exact IH2 | exact IH3].
Qed.

(** C7. On an initialized store [pin] never throws: it returns, or it
    is still waiting when a service has not replied; it returns whenever
    every service gets its replies.  When an operation of a pinning
    service has failed, [pin] has returned normally and the last line of
    the console is the error that was logged. *)
Theorem pin_swallows_backend_failures (schedule : list nat) (cid : Value)
    (w : World Node) :
  _initialized (this w) = true ->
  let o := fst (pin schedule cid w) in
  let w' := snd (pin schedule cid w) in
  (o = Returned tt \/ o = Pending) /\
  (covers schedule (length (pinningServices (this w))) -> o = Returned tt) /\
  (forall evs e,
     events w' = events w ++ evs -> Exists (failure e) evs ->
     o = Returned tt /\
     exists e', last (console w') = Some (LogPinningError e') /\
                Exists (failure e') evs).
Proof.
  intros Hini o w'. subst o w'.
  pose proof (init_initialized w Hini) as Hinit.
  destruct (decide (pinningServices (this w) = [])) as [Hnil|Hsvcs].
  { rewrite (pin_no_services schedule cid w w Hinit Hnil). simpl.
    split; [by left|]. split; [done|]. intros evs e Hev Hex.
    apply app_same_nil in Hev. subst evs. by apply Exists_nil in Hex. }
  destruct (ipfs (this w)) as [n|] eqn:Hn.
  2:{ rewrite (pin_no_node schedule cid w w Hinit Hn Hsvcs). simpl.
      split; [by left|]. split; [done|]. intros evs e Hev Hex.
      apply app_same_nil in Hev. subst evs. by apply Exists_nil in Hex. }
  pose proof (pin_spec schedule cid w w n Hinit Hn Hsvcs) as Hpin.
  cbv zeta in Hpin.
  pose proof (run_failures cid schedule _
                (start_failures cid (pinningServices (this w)) n))
    as [Hrec1 Hrec2].
  pose proof (run_settles cid schedule
                (start cid (pinningServices (this w)) n)) as Hsettle.
  destruct (Promise_all (tasks (run cid schedule _))) as [|e0|] eqn:Hall;
    rewrite Hpin; simpl.
  - split; [by left|]. split; [done|]. intros evs e Hev Hex.
    apply app_inv_head in Hev. subst evs.
    destruct (Hrec2 _ Hex) as (j & s & Hj).
    apply Promise_all_fulfilled in Hall.
    rewrite Forall_lookup in Hall. by specialize (Hall _ _ Hj).
  - split; [by left|]. split; [done|]. intros evs e Hev Hex.
    apply app_inv_head in Hev. subst evs. split; [done|].
    exists e0. split.
    + by rewrite app_assoc, last_snoc.
    + apply Promise_all_rejected in Hall as (j & s & Hj). eauto.
  - split; [by right|]. split.
    + intros Hcov. destruct Hsettle; [|done].
      by apply start_covered.
    + intros evs e Hev Hex. apply app_inv_head in Hev. subst evs.
      destruct (Hrec2 _ Hex) as (j & s & Hj).
      apply Promise_all_pending in Hall as [Hnone _].
      by destruct (Hnone j s e).
Qed.

Lemma run_start_requests (cid : Value) (schedule : list nat)
    (services : list string) (n : Node) :
  let evs := fan_events (run cid schedule (start cid services n)) in
  ls_requests evs = (fun s => (cid, s)) <$> services /\
  pin_requests evs =
    (fun cs => (fst cs, snd cs, false)) <$> unpinned_replies evs /\
  Forall (fan_event cid services) evs.
Proof.
  destruct (run_trace cid schedule (start cid services n))
    as (new & Hev & Hls & Hpin & Hfan).
  destruct (start_requests cid services) as (Hs1 & Hs2 & Hs3).
  rewrite start_services in Hfan.
  cbv zeta. rewrite Hev. simpl.
  unfold ls_requests, pin_requests, unpinned_replies in *.
  rewrite !omap_app, Hs1, Hs2, Hs3, Hls, Hpin, app_nil_r.
  split; [done|]. split; [done|]. apply Forall_app. split; [|done].
  apply Forall_forall. intros ev (s & -> & Hs)%list_elem_of_fmap. by simpl.
Qed.


(** ** Services that already list the identifier *)

(** A pin request is sent only to a service that has just answered
    "not pinned", and it is sent in the foreground. *)
Lemma pin_request_follows_reply (evs : list Event) (c : Value)
    (s : string) (bg : bool) :
  pin_requests evs =
    (fun cs => (fst cs, snd cs, false)) <$> unpinned_replies evs ->
  EvPinAdd c s bg ∈ evs ->
  EvLsReply c s SaysNotPinned ∈ evs /\ bg = false.
Proof.
  intros Hreq Hin.
  assert ((c, s, bg) ∈ pin_requests evs) as Hp.
  { apply list_elem_of_omap. by exists (EvPinAdd c s bg). }
  rewrite Hreq in Hp. apply list_elem_of_fmap in Hp as ([c' s'] & Heq & Hu).
  simpl in Heq. simplify_eq.
  apply list_elem_of_omap in Hu as (ev & Hev & Hsome).
  split; [|done]. destruct ev as [| | | | | |? ? []| |]; by simplify_eq.
Qed.

Section KeepsPins.
Context (cid : Value) (Hkeeps : KeepsPins cid).

Lemma step_quiet (service : string) (i : nat) (f : Fan Node) :
  quiet cid service f -> quiet cid service (step cid i f).
Proof.
  unfold quiet, unpinned_replies. intros [Hl Hno].
  step_cases cid i f; try (by split).
  all: try (pose proof (ls_keeps_listed cid Hkeeps service s (node f) Hl)
              as Hl'; rewrite Hls in Hl'; simpl in Hl').
  all: try (pose proof (add_keeps_listed cid Hkeeps service s (node f) Hl)
              as Hl'; rewrite Hadd in Hl'; simpl in Hl').
  all: split; [done|]; rewrite omap_app; simpl;
    rewrite ?app_nil_r; try done.
  rewrite elem_of_app, list_elem_of_singleton. intros [?|Heq]; [done|].
  simplify_eq. unfold listed in Hl. by rewrite Hls in Hl.
Qed.

Lemma run_quiet (service : string) (schedule : list nat)
    (services : list string) (n : Node) (bg : bool) :
  listed cid service n ->
  EvPinAdd cid service bg ∉
    fan_events (run cid schedule (start cid services n)).
Proof.
  intros Hl Hin.
  assert (quiet cid service (run cid schedule (start cid services n)))
    as [_ Hno].
  { apply run_preserves; [intros i f; apply step_quiet|].
    split; [done|]. simpl.
    destruct (start_requests cid services) as (_ & _ & ->).
    apply not_elem_of_nil. }
  destruct (run_start_requests cid schedule services n) as (_ & Hreq & _).
  destruct (pin_request_follows_reply _ _ _ _ Hreq Hin) as [Hrep _].
  apply Hno, list_elem_of_omap.
  by exists (EvLsReply cid service SaysNotPinned).
Qed.

Lemma step_fulfilled_listed (i : nat) (f : Fan Node) :
  fulfilled_listed cid f -> fulfilled_listed cid (step cid i f).
Proof.
  unfold fulfilled_listed. intros Hl.
  step_cases cid i f; try done.
  all: intros j s' Hj;
    apply list_lookup_insert_Some in Hj as [(<- & Heq & _)|(Hne & Hj)];
    simplify_eq.
  all: try (pose proof (ls_keeps_listed cid Hkeeps s' s (node f)) as Hl';
            rewrite Hls in Hl'; simpl in Hl'; by eauto).
  all: try (pose proof (add_keeps_listed cid Hkeeps s' s (node f)) as Hl';
            rewrite Hadd in Hl'; simpl in Hl'; by eauto).
  - pose proof (ls_keeps_listed cid Hkeeps s' s' (node f)) as Hl'.
    rewrite Hls in Hl'. apply Hl'. unfold listed. by rewrite Hls.
  - destruct u. by apply (add_lists cid Hkeeps s' (node f)).
Qed.

Lemma run_fulfilled_listed (schedule : list nat) (services : list string)
    (n : Node) :
  let f := run cid schedule (start cid services n) in
  Promise_all (tasks f) = AllFulfilled ->
  forall s, s ∈ services -> listed cid s (node f).
Proof.
  intros f Hall s Hs.
  assert (fulfilled_listed cid f) as Hl.
  { apply run_preserves; [intros i f'; apply step_fulfilled_listed|].
    intros j s' Hj. simpl in Hj. rewrite list_lookup_fmap in Hj.
    by destruct (services !! j). }
  assert (s ∈ fst <$> tasks f) as Hin.
  { unfold f. by rewrite run_services, start_services. }
  apply list_elem_of_fmap in Hin as ([s' t] & -> & Hin).
  apply list_elem_of_lookup in Hin as [j Hj].
  apply Promise_all_fulfilled in Hall. rewrite Forall_lookup in Hall.
  pose proof (Hall _ _ Hj) as Ht. simpl in Ht. subst t. by eapply Hl.
Qed.

End KeepsPins.

Lemma pin_trace (schedule : list nat) (cid : Value) (w w1 : World Node) :
  init w = (Returned tt, w1) ->
  exists evs,
    events (snd (pin schedule cid w)) = events w1 ++ evs /\
    pin_requests evs =
      (fun cs => (fst cs, snd cs, false)) <$> unpinned_replies evs.
Proof.
  intros Hinit.
  destruct (decide (pinningServices (this w1) = [])) as [Hnil|Hsvcs].
  { rewrite (pin_no_services schedule cid w w1 Hinit Hnil). simpl.
    exists []. by rewrite app_nil_r. }
  destruct (ipfs (this w1)) as [n|] eqn:Hn.
  2:{ rewrite (pin_no_node schedule cid w w1 Hinit Hn Hsvcs). simpl.
      exists []. by rewrite app_nil_r. }
  pose proof (pin_spec schedule cid w w1 n Hinit Hn Hsvcs) as Hpin.
  cbv zeta in Hpin.
  destruct (run_start_requests cid schedule (pinningServices (this w1)) n)
    as (_ & Hreq & _).
  eexists. split; [|exact Hreq].
  by destruct (Promise_all (tasks (run cid schedule _))); rewrite Hpin.
Qed.

(** C3. A pin request is sent only to a service whose listing has
    answered "not pinned" during the call.  When the pinning services
    keep listing what they have pinned ([KeepsPins]), a service that lists
    the identifier when [pin] is called gets no pin request from that
    call; in particular, after a first [pin] that has succeeded for every
    service, a second [pin] of the same identifier sends no pin request at
    all. *)
Theorem pin_skips_pinned (cid : Value) (schedule : list nat)
    (w w1 : World Node) :
  init w = (Returned tt, w1) ->
  let w' := snd (pin schedule cid w) in
  (forall evs service bg,
     events w' = events w1 ++ evs ->
     EvPinAdd cid service bg ∈ evs ->
     EvLsReply cid service SaysNotPinned ∈ evs) /\
  (KeepsPins cid ->
   (forall service n evs bg,
      ipfs (this w1) = Some n -> listed cid service n ->
      events w' = events w1 ++ evs ->
      EvPinAdd cid service bg ∉ evs) /\
   (fst (pin schedule cid w) = Returned tt ->
    last (console w') = Some (LogPinned cid) ->
    forall schedule2 evs,
      events (snd (pin schedule2 cid w')) = events w' ++ evs ->
      pin_requests evs = [])).
Proof.
  intros Hinit w'. subst w'. split.
  { intros evs service bg Hev Hin.
    destruct (pin_trace schedule cid w w1 Hinit) as (evs0 & Hev0 & Hreq).
    rewrite Hev0 in Hev. apply app_inv_head in Hev. subst evs0.
    by destruct (pin_request_follows_reply _ _ _ _ Hreq Hin). }
  intros Hkeeps.
  destruct (init_returned w w1 Hinit) as [Hini _].
  destruct (decide (pinningServices (this w1) = [])) as [Hnil|Hsvcs].
  { rewrite (pin_no_services schedule cid w w1 Hinit Hnil). simpl. split.
    - intros service n evs bg _ _ Hev. apply app_same_nil in Hev. subst evs.
      apply not_elem_of_nil.
    - intros _ Hlast. by rewrite last_snoc in Hlast. }
  destruct (ipfs (this w1)) as [n|] eqn:Hn.
  2:{ rewrite (pin_no_node schedule cid w w1 Hinit Hn Hsvcs). simpl. split.
      - by intros service n evs bg [=].
      - intros _ Hlast. by rewrite last_snoc in Hlast. }
  pose proof (pin_spec schedule cid w w1 n Hinit Hn Hsvcs) as Hpin.
  cbv zeta in Hpin. split.
  - intros service n' evs bg [= <-] Hl Hev.
    assert (evs = fan_events (run cid schedule
                                (start cid (pinningServices (this w1)) n)))
      as ->.
    { destruct (Promise_all (tasks (run cid schedule _)));
        rewrite Hpin in Hev; simpl in Hev; by apply app_inv_head in Hev. }
    by apply run_quiet.
  - destruct (Promise_all (tasks (run cid schedule _))) as [|e0|] eqn:Hall;
      rewrite Hpin; simpl; intros Ho Hlast;
      try (rewrite app_assoc, last_snoc in Hlast); try done.
    intros schedule2 evs Hev.
    set (f := run cid schedule (start cid (pinningServices (this w1)) n))
      in *.
    set (w2 := after_fan cid w1 f [LogPinned cid]) in *.
    assert (init w2 = (Returned tt, w2)) as Hinit2
      by (by apply init_initialized).
    pose proof (pin_spec schedule2 cid w2 w2 (node f) Hinit2 eq_refl Hsvcs)
      as Hpin2.
    cbv zeta in Hpin2. simpl in Hpin2.
    set (f2 := run cid schedule2
                 (start cid (pinningServices (this w1)) (node f))) in *.
    assert (evs = fan_events f2) as ->.
    { destruct (Promise_all (tasks f2)); rewrite Hpin2 in Hev;
        simpl in Hev; by apply app_inv_head in Hev. }
    destruct (run_start_requests cid schedule2 (pinningServices (this w1))
                (node f)) as (_ & Hreq & Hfan).
    fold f2 in Hreq, Hfan.
    destruct (pin_requests (fan_events f2)) as [|[[c s] bg] reqs] eqn:Hreqs;
      [done|].
    assert (EvPinAdd c s bg ∈ fan_events f2) as Hin.
    { assert ((c, s, bg) ∈ pin_requests (fan_events f2)) as Hp
        by (rewrite Hreqs; left).
      apply list_elem_of_omap in Hp as (ev & Hev' & Hsome).
      destruct ev; by simplify_eq. }
    rewrite Forall_forall in Hfan.
    destruct (Hfan _ Hin) as [-> Hs]. exfalso.
    eapply (run_quiet cid Hkeeps s schedule2); [|exact Hin].
    by apply run_fulfilled_listed.
Qed.

(** ** The set-up is left alone *)

Lemma fan_event_not_setup (cid : Value) (services : list string)
    (evs : list Event) :
  Forall (fan_event cid services) evs ->
  Forall (fun ev => setup_event ev = false) evs.
Proof. intros H. eapply Forall_impl; [exact H|]. by intros []. Qed.

Ltac same_setup_now :=
  unfold same_setup; simpl; repeat split; eauto;
  try (by intros [? [=]]);
  try (eexists; (split; [reflexivity|]); by repeat constructor);
  try (exists []; split; [by rewrite app_nil_r | done]).

Lemma fetch_keeps_setup (cid : string) (w : World Node) :
  keeps_setup (fetch cid) w.
Proof.
  unfold keeps_setup, fetch, bind, emit, on_ipfs, set_ipfs, set_this, settle.
  destruct (ipfs (this w)) as [n|] eqn:Hn; simpl;
    [|rewrite ?Hn; same_setup_now].
  rewrite ?Hn. destruct (ipfs_cat cid n) as [[e|chunks] n']; same_setup_now.
Qed.

Lemma get_keeps_setup (u : Value) (w : World Node) :
  keeps_setup (get u) w /\ keeps_setup (getString u) w /\
  keeps_setup (getBase64String u) w.
Proof.
  destruct u as [u|c]; [|repeat split; same_setup_now].
  assert (forall {B} (g : bytes -> B),
            keeps_setup (let* b := get u in ret (g b)) w) as Hmap.
  { intros B g. rewrite get_fetch.
    pose proof (fetch_keeps_setup
                  (if startsWith u "ipfs://"
                   then slice u (String.length "ipfs://") else u) w) as H.
    unfold keeps_setup, same_setup, bind in *.
    destruct (fetch _ w) as [[b|e|] w']; exact H. }
  split; [|split].
  - rewrite get_fetch. apply fetch_keeps_setup.
  - apply (Hmap _ (fun b => uint8ArrayToString b Utf8)).
  - apply (Hmap _ (fun b => uint8ArrayToString b Base64)).
Qed.

Lemma pin_keeps_setup (schedule : list nat) (cid : Value) (w : World Node) :
  _initialized (this w) = true -> keeps_setup (pin schedule cid) w.
Proof.
  intros Hini. pose proof (init_initialized w Hini) as Hinit.
  unfold keeps_setup, same_setup.
  destruct (decide (pinningServices (this w) = [])) as [Hnil|Hsvcs].
  { rewrite (pin_no_services schedule cid w w Hinit Hnil). simpl.
    repeat split; eauto. exists []. by rewrite app_nil_r. }
  destruct (ipfs (this w)) as [n|] eqn:Hn.
  2:{ rewrite (pin_no_node schedule cid w w Hinit Hn Hsvcs). simpl.
      repeat split; eauto; try (by intros [? [=]]).
      exists []. by rewrite app_nil_r. }
  pose proof (pin_spec schedule cid w w n Hinit Hn Hsvcs) as Hpin.
  cbv zeta in Hpin.
  destruct (run_start_requests cid schedule (pinningServices (this w)) n)
    as (_ & _ & Hfan%fan_event_not_setup).
  destruct (Promise_all (tasks (run cid schedule _))); rewrite Hpin; simpl;
    repeat split; eauto.
Qed.

Lemma same_setup_trans (w1 w2 w3 : World Node) :
  same_setup w1 w2 -> same_setup w2 w3 -> same_setup w1 w3.
Proof.
  intros (Hc & Hi & Hs & Hn & evs & Hev & Hevs)
         (Hc' & Hi' & Hs' & Hn' & evs' & Hev' & Hevs').
  repeat split; try congruence; eauto.
  exists (evs ++ evs'). split; [by rewrite Hev', Hev, app_assoc|].
  by apply Forall_app.
Qed.

Lemma addAsset_keeps_setup (schedule : list nat) (filename : string)
    (assetData : option bytes) (w : World Node) :
  _initialized (this w) = true ->
  keeps_setup (addAsset schedule filename assetData) w.
Proof.
  intros Hini. unfold keeps_setup, addAsset.
  unfold bind at 1. rewrite (init_initialized w Hini).
  unfold bind at 1.
  assert (exists o wr,
            match assetData with
            | Some data => ret data
            | None => log (LogReading filename) >>
                      emit (EvReadFile filename) >>
                      settle (fs_readFile filename)
            end w = (o, wr) /\ same_setup w wr) as (o & wr & -> & Hwr).
  { destruct assetData as [data|].
    - eexists _, _. split; [reflexivity|]. same_setup_now.
    - unfold bind, log, emit, settle. simpl.
      destruct (fs_readFile filename); simpl; eexists _, _;
        (split; [reflexivity|]); same_setup_now. }
  destruct o as [data|e|]; [|done|done].
  assert (_initialized (this wr) = true) as Hini'.
  { destruct Hwr as (_ & -> & _). done. }
  unfold bind, emit, log, on_ipfs, set_ipfs, set_this, settle, ret, throw.
  simpl.
  destruct (ipfs (this wr)) as [n|] eqn:Hn; simpl.
  2:{ eapply same_setup_trans; [exact Hwr|]. same_setup_now. }
  destruct (ipfs_add (path_basename filename) data n) as [[e|cid] n']; simpl.
  { eapply same_setup_trans; [exact Hwr|]. same_setup_now. }
  match goal with
  | |- context [pin schedule (VCID cid) ?wp] =>
      pose proof (pin_keeps_setup schedule cid wp Hini') as Hpin;
      unfold keeps_setup in Hpin;
      assert (same_setup w wp) as Hwp
  end.
  { eapply same_setup_trans; [exact Hwr|]. same_setup_now. }
  destruct (pin schedule cid _) as [[[]|e|] w']; simpl in *;
    by eapply same_setup_trans.
Qed.

(** C9. Once [init] has returned, the store is initialized, and on an
    initialized store a call of [init] returns at once and changes
    nothing; [pin], [addAsset] and the reading operations leave the
    configuration, the flag and the list of registered services as they
    are, keep the node, create no node and register no service. *)
Theorem init_runs_once :
  (forall w0 w : World Node,
     init w0 = (Returned tt, w) -> _initialized (this w) = true) /\
  (forall w : World Node,
     _initialized (this w) = true ->
     init w = (Returned tt, w) /\
     (forall schedule cid, keeps_setup (pin schedule cid) w) /\
     (forall schedule filename assetData,
        keeps_setup (addAsset schedule filename assetData) w) /\
     (forall u, keeps_setup (get u) w /\ keeps_setup (getString u) w /\
                keeps_setup (getBase64String u) w)).
Proof.
  split.
  - intros w0 w Hinit. by destruct (init_returned w0 w Hinit).
  - intros w Hini. split; [by apply init_initialized|].
    split; [by intros; apply pin_keeps_setup|].
    split; [by intros; apply addAsset_keeps_setup|].
    intros u. apply get_keeps_setup.
Qed.


(** ** What is stored, and what is read back *)

Section Faithful.
Context (Hfaithful : FaithfulNode).

Lemma run_serves (cid : Value) (schedule : list nat)
    (services : list string) (n : Node) (c : string) (b : bytes) :
  serves n c b ->
  serves (node (run cid schedule (start cid services n))) c b.
Proof.
  intros Hn.
  apply (run_preserves (fun f => serves (node f) c b)); [|done].
  intros i f Hf. step_cases cid i f; try done.
  all: try (pose proof (ls_keeps_content Hfaithful cid s (node f) c b Hf)
              as H; by rewrite Hls in H).
  all: pose proof (pin_keeps_content Hfaithful cid s false (node f) c b Hf)
    as H; by rewrite Hadd in H.
Qed.

Lemma pin_serves (schedule : list nat) (cid : Value) (w : World Node)
    (n : Node) (c : string) (b : bytes) :
  _initialized (this w) = true ->
  ipfs (this w) = Some n ->
  serves n c b ->
  exists n', ipfs (this (snd (pin schedule cid w))) = Some n' /\
             serves n' c b.
Proof.
  intros Hini Hn Hserves. pose proof (init_initialized w Hini) as Hinit.
  destruct (decide (pinningServices (this w) = [])) as [Hnil|Hsvcs].
  { rewrite (pin_no_services schedule cid w w Hinit Hnil). simpl. eauto. }
  pose proof (pin_spec schedule cid w w n Hinit Hn Hsvcs) as Hpin.
  cbv zeta in Hpin.
  pose proof (run_serves cid schedule (pinningServices (this w)) n c b
                Hserves) as Hrun.
  destruct (Promise_all (tasks (run cid schedule _))); rewrite Hpin; simpl;
    eauto.
Qed.

End Faithful.

(** What [addAsset] has done when it returns for given data. *)
Lemma addAsset_returned (schedule : list nat) (filename : string)
    (b : bytes) (w w' : World Node) (cid : CID) :
  addAsset schedule filename (Some b) w = (Returned cid, w') ->
  exists w1 n n',
    init w = (Returned tt, w1) /\
    ipfs (this w1) = Some n /\
    ipfs_add (path_basename filename) b n = (inr cid, n') /\
    pin schedule cid
      {| this := {| config := config (this w1);
                    _initialized := _initialized (this w1);
                    ipfs := Some n';
                    pinningServices := pinningServices (this w1) |};
         console := console w1 ++ [LogAdded cid];
         events := events w1 ++ [EvAdd (path_basename filename) b];
         inflight := inflight w1 |} = (Returned tt, w').
Proof.
  unfold addAsset. unfold bind at 1.
  destruct (init w) as [[[]|e|] w1] eqn:Hinit; [|done|done].
  unfold bind, emit, log, on_ipfs, set_ipfs, set_this, settle, ret, throw.
  simpl. destruct (ipfs (this w1)) as [n|] eqn:Hn; simpl; [|done].
  destruct (ipfs_add (path_basename filename) b n) as [[e|c] n'] eqn:Hadd;
    simpl; [done|].
  destruct (pin schedule c _) as [[[]|e|] w2] eqn:Hpin; [|done|done].
  intros [= -> ->]. by exists w1, n, n'.
Qed.

(** On a faithful node, once [addAsset] has returned, the node of the
    store serves the bytes under the text of the identifier. *)
Lemma addAsset_stores (schedule : list nat) (filename : string)
    (b : bytes) (w w' : World Node) (cid : CID) :
  FaithfulNode ->
  addAsset schedule filename (Some b) w = (Returned cid, w') ->
  bare (CID_toString cid) /\
  exists n, ipfs (this w') = Some n /\ serves n (CID_toString cid) b.
Proof.
  intros Hfaithful Hadd.
  apply addAsset_returned in Hadd as (w1 & n & n' & Hinit & Hn & Hadd & Hpin).
  destruct (init_returned w w1 Hinit) as [Hini _].
  pose proof (add_serves Hfaithful _ _ _ _ _ Hadd) as Hserves.
  split; [exact (add_bare Hfaithful _ _ _ _ _ Hadd)|].
  match type of Hpin with
  | pin _ _ ?wp = _ =>
      destruct (pin_serves Hfaithful schedule cid wp n' (CID_toString cid) b
                  Hini eq_refl Hserves) as (n2 & Hn2 & Hs)
  end.
  rewrite Hpin in Hn2. eauto.
Qed.

(** Reading from a store whose node serves [b] under [c]. *)
Lemma fetch_serves (c : string) (b : bytes) (w : World Node) (n : Node) :
  ipfs (this w) = Some n ->
  serves n c b ->
  exists w', fetch c w = (Returned b, w').
Proof.
  intros Hn (chunks & n' & Hcat & Hb).
  unfold fetch, bind, emit, on_ipfs, set_ipfs, set_this, settle, ret. simpl.
  rewrite Hn, Hcat. simpl. rewrite Hb. eauto.
Qed.

(** C1. The claim does not hold of the code.  [addAsset] returns the
    [CID] object of the node as it is, although its documentation
    promises a string, and [get] calls [startsWith] on what it is given,
    which a [CID] object does not have.  So for every name and all bytes
    [b], [get] of what [addAsset] has returned fails with a [TypeError]
    and reads nothing, and so do [getString] and [getBase64String].  The
    bytes are stored all the same: on a faithful node, [get] of the text
    of that identifier returns exactly [b]. *)
Theorem get_rejects_what_addAsset_returns (schedule : list nat)
    (filename : string) (b : bytes) (w w' : World Node) (cid : CID) :
  addAsset schedule filename (Some b) w = (Returned cid, w') ->
  get (VCID cid) w' = (Thrown (not_a_function "cidOrURI.startsWith"), w') /\
  getString (VCID cid) w' =
    (Thrown (not_a_function "cidOrURI.startsWith"), w') /\
  getBase64String (VCID cid) w' =
    (Thrown (not_a_function "cidOrURI.startsWith"), w') /\
  (FaithfulNode ->
   exists w'', get (VString (CID_toString cid)) w' = (Returned b, w'')).
Proof.
  intros Hadd. do 3 (split; [done|]). intros Hfaithful.
  destruct (addAsset_stores _ _ _ _ _ _ Hfaithful Hadd)
    as (Hbare & n & Hn & Hserves).
  rewrite (get_bare _ Hbare). by eapply fetch_serves.
Qed.

(** * Further properties of the store *)

(** ** [init] and [MakeAssetStorage] *)

(** What [init] does on a store that is not initialized. *)
Lemma init_uninitialized (w w' : World Node) (o : Outcome unit) :
  _initialized (this w) = false ->
  init w = (o, w') ->
  config (this w') = config (this w) /\
  console w' = console w /\
  inflight w' = inflight w /\
  ((exists e, IPFS_create false = inl e /\ o = Thrown e /\
              w' = tried_create w) \/
   (exists n0 done rest,
      IPFS_create false = inr n0 /\
      is_Some (ipfs (this w')) /\
      AssetStorageConfig.pinningServices (config (this w)) = done ++ rest /\
      Forall accepted done /\
      pinningServices (this w') = pinningServices (this w) ++ map name done /\
      ((rest = [] /\ o = Returned tt /\ _initialized (this w') = true /\
        events w' =
          events w ++ EvCreate false :: concat (map attempt done)) \/
       (exists svc rest' e,
          rest = svc :: rest' /\ o = Thrown e /\ refused svc e /\
          _initialized (this w') = false /\
          events w' =
            events w ++
            EvCreate false :: concat (map attempt (done ++ [svc])))))).
Proof.
  intros Hini Hinit. unfold init in Hinit. rewrite Hini in Hinit.
  unfold bind at 1 in Hinit. simpl in Hinit.
  unfold bind at 1 in Hinit.
  destruct (IPFS_create false) as [e|n0] eqn:Hcreate; simpl in Hinit.
  { simplify_eq. split; [done|]. split; [done|]. split; [done|].
    left. by exists e. }
  unfold bind at 1 in Hinit. simpl in Hinit.
  unfold bind at 1 in Hinit.
  match type of Hinit with
  | context [register ?l ?w2] =>
      destruct (register l w2) as [o2 w2'] eqn:Hreg
  end.
  apply register_spec in Hreg; [|simpl; eauto].
  destruct Hreg as (Hc & Hi & Hs & Hcon & Hinf & done & rest & Hcfg & Hdone
                    & Hsvcs & Hev).
  simpl in *.
  destruct Hev
    as [(-> & -> & Hev)|(svc & rest' & e & -> & -> & Href & Hev)];
    simpl in Hinit; unfold set_initialized, set_this in Hinit;
    simplify_eq; simpl.
  - split; [done|]. split; [done|]. split; [done|].
    right. exists n0, done, []. do 5 (split; [done|]).
    left. do 3 (split; [done|]). by rewrite Hev, <- app_assoc.
  - split; [done|]. split; [done|]. split; [done|].
    right. exists n0, done, (svc :: rest'). do 5 (split; [done|]).
    right. exists svc, rest', e. do 3 (split; [done|]).
    split; [congruence|]. by rewrite Hev, <- app_assoc.
Qed.

(** X1. When [MakeAssetStorage] returns a store, the store is
    initialized and has a node, it holds the configuration it was made
    from, its list of services is the names of the configured services in
    the order of the configuration, every one of them was accepted by the
    node, and all that was done is the creation of the node followed by
    one registration request for each service in that order; nothing was
    logged and nothing is in flight. *)
Theorem MakeAssetStorage_returned (cfg : AssetStorageConfig.t)
    (w : World Node) :
  MakeAssetStorage cfg = (Returned tt, w) ->
  _initialized (this w) = true /\
  is_Some (ipfs (this w)) /\
  config (this w) = cfg /\
  pinningServices (this w) =
    map name (AssetStorageConfig.pinningServices cfg) /\
  Forall accepted (AssetStorageConfig.pinningServices cfg) /\
  events w =
    EvCreate false ::
    concat (map attempt (AssetStorageConfig.pinningServices cfg)) /\
  console w = [] /\
  inflight w = [].
Proof.
  unfold MakeAssetStorage. intros Hinit.
  apply init_uninitialized in Hinit; [|done].
  destruct Hinit as (Hc & Hcon & Hinf & [(e & _ & [=] & _)|Hreg]).
  destruct Hreg as (n0 & done & rest & _ & Hs & Hcfg & Hdone & Hsvcs & Hend).
  simpl in *.
  destruct Hend as [(-> & _ & Hini & Hev)|(svc & rest' & e & _ & [=] & _)].
  rewrite app_nil_r in Hcfg. subst done. by repeat split.
Qed.

(** X2. When the node cannot be created, [init] on a store that is not
    initialized fails with the error of the creation and changes nothing
    in the store: no node, no service, not initialized.  [pin] and
    [addAsset] on that store fail with the same error before they do
    anything of their own. *)
Theorem creation_failure_surfaces (w : World Node) (e : Error) :
  _initialized (this w) = false ->
  IPFS_create false = inl e ->
  init w = (Thrown e, tried_create w) /\
  this (tried_create w) = this w /\
  (forall schedule cid, pin schedule cid w = (Thrown e, tried_create w)) /\
  (forall schedule filename assetData,
     addAsset schedule filename assetData w = (Thrown e, tried_create w)).
Proof.
  intros Hini Hcreate.
  assert (init w = (Thrown e, tried_create w)) as Hinit.
  { unfold init. rewrite Hini. unfold bind at 1. simpl.
    unfold bind at 1. by rewrite Hcreate. }
  split; [done|]. split; [done|]. split.
  - intros schedule cid. unfold pin, bind at 1. by rewrite Hinit.
  - intros schedule filename assetData. unfold addAsset, bind at 1.
    by rewrite Hinit.
Qed.

(** X3. An [init] that fails leaves the store uninitialized and keeps
    the names that it had appended before the failure.  So the next
    [init] starts again: it creates a node once more and appends to the
    list as it is, and the names registered before the failure are still
    in the list. *)
Theorem failed_init_is_not_undone (w w1 : World Node) (e : Error) :
  _initialized (this w) = false ->
  init w = (Thrown e, w1) ->
  _initialized (this w1) = false /\
  config (this w1) = config (this w) /\
  (exists names,
     pinningServices (this w1) = pinningServices (this w) ++ names) /\
  (forall o2 w2,
     init w1 = (o2, w2) ->
     (exists evs, events w2 = events w1 ++ EvCreate false :: evs) /\
     (exists names,
        pinningServices (this w2) = pinningServices (this w1) ++ names)).
Proof.
  intros Hini Hinit.
  assert (forall (v v' : World Node) (o : Outcome unit),
            _initialized (this v) = false -> init v = (o, v') ->
            (exists evs, events v' = events v ++ EvCreate false :: evs) /\
            (exists names,
               pinningServices (this v') = pinningServices (this v) ++ names) /\
            (o <> Returned tt -> _initialized (this v') = false)) as Hstep.
  { intros v v' o Hv Hi. apply init_uninitialized in Hi; [|done].
    destruct Hi as (_ & _ & _ & [(e' & _ & -> & ->)|Hreg]).
    - simpl. split; [by exists []|]. split; [|done].
      exists []. by rewrite app_nil_r.
    - destruct Hreg as (n0 & done & rest & _ & _ & _ & _ & Hsvcs & Hend).
      split; [|split; [by exists (map name done)|]].
      + destruct Hend as [(_ & _ & _ & ->)|(svc & rest' & e' & _ & _ & _ & _
                                           & ->)]; eauto.
      + destruct Hend as [(_ & -> & _)|(svc & rest' & e' & _ & _ & _ & Hi
                                        & _)]; done. }
  destruct (Hstep w w1 (Thrown e) Hini Hinit) as (_ & Hnames & Hi1).
  specialize (Hi1 ltac:(done)).
  split; [done|]. split.
  { apply init_uninitialized in Hinit; [|done]. by destruct Hinit. }
  split; [done|].
  intros o2 w2 Hinit2. destruct (Hstep w1 w2 o2 Hi1 Hinit2) as (H1 & H2 & _).
  done.
Qed.

(** An operation that begins with [init] goes on from the store that
    [init] leaves, where [init] has nothing more to do. *)
Lemma after_init {A} (k : Async Node A) (w : World Node) :
  (init >> k) w =
  match init w with
  | (Returned _, w1) => (init >> k) w1
  | (Thrown e, w1) => (Thrown e, w1)
  | (Pending, w1) => (Pending, w1)
  end.
Proof.
  unfold bind at 1. destruct (init w) as [[[]|e|] w1] eqn:Hinit; try done.
  destruct (init_returned w w1 Hinit) as [Hini _].
  unfold bind. by rewrite (init_initialized w1 Hini).
Qed.

(** X4. [pin] and [addAsset] begin with [init]: on a store where [init]
    returns they go on exactly as on the store that [init] leaves, so
    calling [init] before them changes nothing; and when [init] fails they
    fail with its error and do nothing else. *)
Theorem operations_await_init (schedule : list nat) (cid : Value)
    (filename : string) (assetData : option bytes) (w : World Node) :
  match init w with
  | (Returned _, w1) =>
      pin schedule cid w = pin schedule cid w1 /\
      addAsset schedule filename assetData w =
        addAsset schedule filename assetData w1
  | (Thrown e, w1) =>
      pin schedule cid w = (Thrown e, w1) /\
      addAsset schedule filename assetData w = (Thrown e, w1)
  | (Pending, w1) =>
      pin schedule cid w = (Pending, w1) /\
      addAsset schedule filename assetData w = (Pending, w1)
  end.
Proof.
  assert (forall {A} (k : Async Node A),
            match init w with
            | (Returned _, w1) => (init >> k) w = (init >> k) w1
            | (Thrown e, w1) => (init >> k) w = (Thrown e, w1)
            | (Pending, w1) => (init >> k) w = (Pending, w1)
            end) as Hk.
  { intros A k. rewrite (after_init k w).
    by destruct (init w) as [[[]|e|] w1]. }
  pose proof (Hk _ (fun w =>
    if (length (pinningServices (this w)) <? 1)%nat
    then log (LogNoServices cid) w
    else
      (let* r := await_all schedule cid in
       match r with
       | inr _ => log (LogPinned cid)
       | inl e => log (LogPinningError e)
       end) w)) as Hpin.
  pose proof (Hk _ (
    let* assetData :=
      match assetData with
      | None =>
          log (LogReading filename) >>
          emit (EvReadFile filename) >>
          settle (fs_readFile filename)
      | Some data => ret data
      end in
    let* cid := on_ipfs "add" (EvAdd (path_basename filename) assetData)
                        (ipfs_add (path_basename filename) assetData) in
    log (LogAdded cid) >>
    pin schedule cid >>
    ret cid)) as Hadd.
  by destruct (init w) as [[[]|e|] w1].
Qed.

(** ** [pin] *)

(** What [pin] has exchanged once the [init] that it awaits has
    returned, and how it ends. *)
Lemma pin_exchange (schedule : list nat) (cid : Value) (w w1 : World Node) :
  init w = (Returned tt, w1) ->
  (fst (pin schedule cid w) = Returned tt \/
   fst (pin schedule cid w) = Pending) /\
  exists evs,
    events (snd (pin schedule cid w)) = events w1 ++ evs /\
    Forall (fan_event cid (pinningServices (this w1))) evs /\
    (is_Some (ipfs (this w1)) ->
     ls_requests evs = (fun s => (cid, s)) <$> pinningServices (this w1)).
Proof.
  intros Hinit.
  destruct (decide (pinningServices (this w1) = [])) as [Hnil|Hsvcs].
  { rewrite (pin_no_services schedule cid w w1 Hinit Hnil). simpl.
    split; [by left|]. exists []. rewrite app_nil_r, Hnil. done. }
  destruct (ipfs (this w1)) as [n|] eqn:Hn.
  2:{ rewrite (pin_no_node schedule cid w w1 Hinit Hn Hsvcs). simpl.
      split; [by left|]. exists []. rewrite app_nil_r.
      split; [done|]. split; [done|]. by intros [? [=]]. }
  pose proof (pin_spec schedule cid w w1 n Hinit Hn Hsvcs) as Hpin.
  cbv zeta in Hpin.
  destruct (run_start_requests cid schedule (pinningServices (this w1)) n)
    as (Hls & _ & Hfan).
  destruct (Promise_all (tasks (run cid schedule _))); rewrite Hpin; simpl;
    (split; [by (left + right)|]); eexists; by split.
Qed.

(** X5. [pin] exchanges nothing but listings and pin requests about the
    given identifier, and only with the services that are registered in
    the store: no other service, no other identifier, no other call on the
    node. *)
Theorem pin_talks_to_registered_services_only (schedule : list nat)
    (cid : Value) (w w1 : World Node) (evs : list Event) :
  init w = (Returned tt, w1) ->
  events (snd (pin schedule cid w)) = events w1 ++ evs ->
  Forall (fan_event cid (pinningServices (this w1))) evs.
Proof.
  intros Hinit Hev.
  destruct (pin_exchange schedule cid w w1 Hinit) as (_ & evs0 & Hev0 & H & _).
  rewrite Hev0 in Hev. apply app_inv_head in Hev. by subst evs0.
Qed.

(** X6. When the services keep listing what they have pinned and [pin]
    has succeeded (it has logged that the identifier is pinned), every
    registered service lists the identifier in the node that [pin]
    leaves: [isPinned] is true for each of them. *)
Theorem pinned_everywhere_after_pin (schedule : list nat) (cid : Value)
    (w w1 w' : World Node) :
  KeepsPins cid ->
  init w = (Returned tt, w1) ->
  pin schedule cid w = (Returned tt, w') ->
  last (console w') = Some (LogPinned cid) ->
  exists n,
    ipfs (this w') = Some n /\
    forall service,
      service ∈ pinningServices (this w1) -> listed cid service n.
Proof.
  intros Hkeeps Hinit Hpin Hlast.
  destruct (decide (pinningServices (this w1) = [])) as [Hnil|Hsvcs].
  { rewrite (pin_no_services schedule cid w w1 Hinit Hnil) in Hpin.
    simplify_eq. simpl in Hlast. by rewrite last_snoc in Hlast. }
  destruct (ipfs (this w1)) as [n|] eqn:Hn.
  2:{ rewrite (pin_no_node schedule cid w w1 Hinit Hn Hsvcs) in Hpin.
      simplify_eq. simpl in Hlast. by rewrite last_snoc in Hlast. }
  pose proof (pin_spec schedule cid w w1 n Hinit Hn Hsvcs) as Hspec.
  cbv zeta in Hspec. rewrite Hpin in Hspec.
  pose proof (run_fulfilled_listed cid Hkeeps schedule
                (pinningServices (this w1)) n) as Hlisted.
  cbv zeta in Hlisted.
  destruct (Promise_all (tasks (run cid schedule _))) as [|e0|] eqn:Hall;
    simplify_eq; simpl in *.
  - eexists. split; [reflexivity|]. by apply Hlisted.
  - by rewrite app_assoc, last_snoc in Hlast.
Qed.

(** Two tasks of distinct services do not share a service. *)
Lemma task_of_service (ts : list (string * Task)) (i j : nat) (s : string)
    (t t' : Task) :
  NoDup (fst <$> ts) ->
  ts !! i = Some (s, t) -> ts !! j = Some (s, t') -> i = j.
Proof.
  intros Hnd Hi Hj. eapply NoDup_lookup; [exact Hnd| |];
    rewrite list_lookup_fmap; [by rewrite Hi|by rewrite Hj].
Qed.

Lemma step_once_each (cid : Value) (i : nat) (f : Fan Node) :
  NoDup (fst <$> tasks f) -> once_each cid f -> once_each cid (step cid i f).
Proof.
  unfold once_each, unpinned_replies. intros Hnd [Hnodup Hawait].
  step_cases cid i f; try (by split).
  all: rewrite omap_app; simpl; rewrite ?app_nil_r.
  all: split;
    [| intros j s' Hj;
       apply list_lookup_insert_Some in Hj as [(<- & Heq & _)|(Hne & Hj)];
       [done|] ]; eauto.
  - apply NoDup_app. split; [done|]. split; [|apply NoDup_singleton].
    intros x Hx ->%list_elem_of_singleton. by eapply Hawait.
  - rewrite elem_of_app, list_elem_of_singleton.
    intros [Hin|Heq]; [by eapply Hawait|]. simplify_eq.
    apply Hne. by eapply task_of_service.
Qed.

Lemma run_once_each (cid : Value) (schedule : list nat)
    (services : list string) (n : Node) :
  NoDup services ->
  NoDup (pin_requests
           (fan_events (run cid schedule (start cid services n)))).
Proof.
  intros Hnd.
  assert (once_each cid (run cid schedule (start cid services n)))
    as [Hnodup _].
  { refine (proj2 (run_preserves
              (fun f => NoDup (fst <$> tasks f) /\ once_each cid f) cid
              _ schedule (start cid services n) _)).
    - intros i f [Hs Ho]. split; [by rewrite step_services|].
      by apply step_once_each.
    - split; [by rewrite start_services|].
      unfold once_each. simpl.
      destruct (start_requests cid services) as (_ & _ & ->).
      split; [apply NoDup_nil_2|]. intros i s _. apply not_elem_of_nil. }
  destruct (run_start_requests cid schedule services n) as (_ & -> & _).
  apply NoDup_fmap_2; [|done]. by intros [c s] [c' s'] [= -> ->].
Qed.

(** X7. When the names of the registered services are distinct, no two
    pin requests of one call of [pin] go to the same service, and no
    service is asked twice for its listing. *)
Theorem pin_asks_each_service_once (schedule : list nat) (cid : Value)
    (w w1 : World Node) (evs : list Event) :
  NoDup (pinningServices (this w1)) ->
  init w = (Returned tt, w1) ->
  events (snd (pin schedule cid w)) = events w1 ++ evs ->
  NoDup (ls_requests evs) /\ NoDup (pin_requests evs).
Proof.
  intros Hnd Hinit Hev.
  destruct (decide (pinningServices (this w1) = [])) as [Hnil|Hsvcs].
  { rewrite (pin_no_services schedule cid w w1 Hinit Hnil) in Hev.
    simpl in Hev. apply app_same_nil in Hev. subst evs.
    split; apply NoDup_nil_2. }
  destruct (ipfs (this w1)) as [n|] eqn:Hn.
  2:{ rewrite (pin_no_node schedule cid w w1 Hinit Hn Hsvcs) in Hev.
      simpl in Hev. apply app_same_nil in Hev. subst evs.
      split; apply NoDup_nil_2. }
  pose proof (pin_spec schedule cid w w1 n Hinit Hn Hsvcs) as Hpin.
  cbv zeta in Hpin.
  assert (evs = fan_events (run cid schedule
                              (start cid (pinningServices (this w1)) n)))
    as ->.
  { destruct (Promise_all (tasks (run cid schedule _)));
      rewrite Hpin in Hev; simpl in Hev; by apply app_inv_head in Hev. }
  split; [|by apply run_once_each].
  destruct (run_start_requests cid schedule (pinningServices (this w1)) n)
    as (-> & _ & _).
  apply NoDup_fmap_2; [|done]. by intros s s' [= ->].
Qed.

(** ** [addAsset] *)

(** [addAsset] with given data, once [init] has returned. *)
Lemma addAsset_with_data (schedule : list nat) (filename : string)
    (b : bytes) (w w1 : World Node) :
  init w = (Returned tt, w1) ->
  addAsset schedule filename (Some b) w =
    match ipfs (this w1) with
    | None => (Thrown (reading_undefined "add"), w1)
    | Some n =>
        match ipfs_add (path_basename filename) b n with
        | (inl e, n') => (Thrown e, asked filename b n' w1)
        | (inr cid, n') =>
            match pin schedule cid (added filename b cid n' w1) with
            | (Returned _, w') => (Returned cid, w')
            | (Thrown e, w') => (Thrown e, w')
            | (Pending, w') => (Pending, w')
            end
        end
    end.
Proof.
  intros Hinit. unfold addAsset. unfold bind at 1. rewrite Hinit.
  unfold bind, emit, log, on_ipfs, set_ipfs, set_this, settle, ret, throw.
  simpl. destruct (ipfs (this w1)) as [n|] eqn:Hn; simpl; [|done].
  destruct (ipfs_add (path_basename filename) b n) as [[e|cid] n']; simpl;
    [done|].
  unfold added, asked. simpl.
  by destruct (pin schedule cid _) as [[[]|e|] w2].
Qed.

(** X8. Without data, [addAsset] logs that it reads [filename] and
    reads it.  When the file cannot be read it fails with the error of the
    reading and the node is not called; otherwise it goes on exactly as a
    call with the bytes of the file. *)
Theorem addAsset_without_data (schedule : list nat) (filename : string)
    (w w1 : World Node) :
  init w = (Returned tt, w1) ->
  match fs_readFile filename with
  | inl e =>
      addAsset schedule filename None w = (Thrown e, reading filename w1)
  | inr b =>
      addAsset schedule filename None w =
        addAsset schedule filename (Some b) (reading filename w1)
  end.
Proof.
  intros Hinit. destruct (init_returned w w1 Hinit) as [Hini _].
  assert (init (reading filename w1) = (Returned tt, reading filename w1))
    as Hinit' by (by apply init_initialized).
  destruct (fs_readFile filename) as [e|b] eqn:Hread.
  - unfold addAsset. unfold bind at 1. rewrite Hinit.
    unfold bind, log, emit, settle. simpl. by rewrite Hread.
  - rewrite (addAsset_with_data schedule filename b _ _ Hinit').
    unfold addAsset. unfold bind at 1. rewrite Hinit.
    unfold bind, emit, log, on_ipfs, set_ipfs, set_this, settle, ret, throw.
    simpl. rewrite Hread. simpl.
    destruct (ipfs (this w1)) as [n|]; simpl; [|done].
    destruct (ipfs_add (path_basename filename) b n) as [[e|cid] n']; simpl;
      [done|].
    unfold added, asked, reading. simpl.
    by destruct (pin schedule cid _) as [[[]|e|] w2].
Qed.

(** X9. With given data, [addAsset] fails only before the pinning
    starts: because the store has no node, or because the node refuses
    the data.  Nothing has then been asked of a pinning service; a
    failure of a pinning service never makes [addAsset] fail. *)
Theorem addAsset_fails_before_pinning (schedule : list nat)
    (filename : string) (b : bytes) (w w1 w' : World Node) (e : Error) :
  init w = (Returned tt, w1) ->
  addAsset schedule filename (Some b) w = (Thrown e, w') ->
  (ipfs (this w1) = None /\ w' = w1 \/
   exists n n',
     ipfs (this w1) = Some n /\
     ipfs_add (path_basename filename) b n = (inl e, n') /\
     w' = asked filename b n' w1) /\
  exists evs,
    events w' = events w1 ++ evs /\
    ls_requests evs = [] /\ pin_requests evs = [].
Proof.
  intros Hinit Hadd.
  rewrite (addAsset_with_data schedule filename b w w1 Hinit) in Hadd.
  destruct (init_returned w w1 Hinit) as [Hini _].
  destruct (ipfs (this w1)) as [n|] eqn:Hn.
  2:{ simplify_eq. split; [by left|]. exists []. by rewrite app_nil_r. }
  destruct (ipfs_add (path_basename filename) b n) as [[e'|cid] n'] eqn:Hnode.
  { simplify_eq. split; [right; by exists n, n'|].
    by exists [EvAdd (path_basename filename) b]. }
  assert (init (added filename b cid n' w1) =
            (Returned tt, added filename b cid n' w1)) as Hinit'
    by (by apply init_initialized).
  destruct (pin_exchange schedule cid _ _ Hinit') as [[Ho|Ho] _];
    destruct (pin schedule cid _) as [[[]|e'|] w2]; by simplify_eq.
Qed.

(** X10. With given data, when [addAsset] returns an identifier, the
    identifier is the one that the node gave for the base name of
    [filename] and the data; the file system was not read; and after the
    data was added every registered service was asked, in the order of the
    list, whether that identifier is pinned, and nothing was exchanged
    but about that identifier with those services. *)
Theorem addAsset_adds_then_pins (schedule : list nat) (filename : string)
    (b : bytes) (w w1 w' : World Node) (cid : CID) :
  init w = (Returned tt, w1) ->
  addAsset schedule filename (Some b) w = (Returned cid, w') ->
  exists n n' exchanged,
    ipfs (this w1) = Some n /\
    ipfs_add (path_basename filename) b n = (inr cid, n') /\
    events w' =
      events w1 ++ EvAdd (path_basename filename) b :: exchanged /\
    ls_requests exchanged =
      (fun s => (VCID cid, s)) <$> pinningServices (this w1) /\
    Forall (fan_event (VCID cid) (pinningServices (this w1))) exchanged.
Proof.
  intros Hinit Hadd.
  rewrite (addAsset_with_data schedule filename b w w1 Hinit) in Hadd.
  destruct (init_returned w w1 Hinit) as [Hini _].
  destruct (ipfs (this w1)) as [n|] eqn:Hn; [|done].
  destruct (ipfs_add (path_basename filename) b n) as [[e'|c] n'] eqn:Hnode;
    [done|].
  assert (init (added filename b c n' w1) =
            (Returned tt, added filename b c n' w1)) as Hinit'
    by (by apply init_initialized).
  destruct (pin_exchange schedule c _ _ Hinit')
    as (_ & evs & Hev & Hfan & Hls).
  destruct (pin schedule c _) as [[[]|e'|] w2]; simplify_eq.
  simpl in *. exists n, n', evs. split; [done|]. split; [done|].
  split; [by rewrite Hev, <- app_assoc|]. split; [|done].
  apply Hls. eauto.
Qed.

(** ** Reading back *)

(** X11. On a faithful node, what [addAsset] has stored is read back
    through every reading operation once the identifier that [addAsset]
    returned is turned into its text: [get] of the text, and of the URI
    [ipfs://] followed by the text, gives the bytes, and [getString] and
    [getBase64String], of the text or of the URI, give what
    [uint8ArrayToString] makes of exactly those bytes. *)
Theorem stored_asset_reads_back (schedule : list nat) (filename : string)
    (b : bytes) (w w' : World Node) (cid : CID) :
  FaithfulNode ->
  addAsset schedule filename (Some b) w = (Returned cid, w') ->
  let x := CID_toString cid in
  exists w'',
    get (VString x) w' = (Returned b, w'') /\
    get (VString ("ipfs://" +:+ x)) w' = (Returned b, w'') /\
    getString (VString x) w' =
      (Returned (uint8ArrayToString b Utf8), w'') /\
    getString (VString ("ipfs://" +:+ x)) w' =
      (Returned (uint8ArrayToString b Utf8), w'') /\
    getBase64String (VString x) w' =
      (Returned (uint8ArrayToString b Base64), w'') /\
    getBase64String (VString ("ipfs://" +:+ x)) w' =
      (Returned (uint8ArrayToString b Base64), w'').
Proof.
  intros Hfaithful Hadd x. subst x.
  destruct (addAsset_stores schedule filename b w w' cid Hfaithful Hadd)
    as (Hbare & n & Hn & Hserves).
  destruct (fetch_serves _ _ _ _ Hn Hserves) as (w'' & Hfetch).
  exists w''. unfold getString, getBase64String, bind.
  rewrite (get_prefixed (CID_toString cid)), (get_bare _ Hbare), Hfetch.
  done.
Qed.

End Facts.

(** ** The node in memory *)

Module MemNodeFacts.
Import MemNode.

Lemma snd_remote_ls (cid : Value) (service : string) (n : t) :
  snd (remote_ls cid service n) = n.
Proof.
  unfold remote_ls. destruct (authorised service n); [done|].
  by destruct (has_pin (text cid) service n).
Qed.

Lemma cat_remote_add (c : string) (cid : Value) (service : string)
    (bg : bool) (n : t) :
  cat c (snd (remote_add cid service bg n)) =
  (fst (cat c n), snd (remote_add cid service bg n)).
Proof.
  unfold remote_add, cat. destruct (authorised service n); simpl;
    by destruct (assoc c (blocks n)).
Qed.

Lemma faithful : FaithfulNode (env := env).
Proof.
  split; simpl.
  - intros path b n cid n' [= <- <-]. eexists _, _. unfold cat. simpl.
    unfold cat. simpl. rewrite String.eqb_refl. split; [reflexivity|]. simpl.
    by rewrite app_nil_r.
  - intros path b n cid n' [= <- <-]. reflexivity.
  - intros c service n cid b Hs. by rewrite snd_remote_ls.
  - intros c service bg n cid b (chunks & n' & Hcat & Hb).
    simpl in *. eexists chunks, _. split; [|done].
    rewrite cat_remote_add, Hcat. done.
Qed.

Lemma listed_iff (cid : Value) (service : string) (n : t) :
  listed (env := env) cid service n <->
  authorised service n = inr tt /\ has_pin (text cid) service n = true.
Proof.
  unfold listed. simpl. unfold remote_ls.
  destruct (authorised service n) as [e|[]]; simpl.
  - split; [done|]. by intros [? _].
  - destruct (has_pin (text cid) service n); simpl; split; try done.
    by intros [_ ?].
Qed.

Lemma keeps_pins (cid : Value) : KeepsPins (env := env) cid.
Proof.
  split.
  - intros service n n'. simpl. unfold remote_add.
    destruct (authorised service n) as [e|[]] eqn:Hauth; [done|].
    intros [= <-]. apply listed_iff. unfold authorised, has_pin in *.
    simpl. by rewrite !String.eqb_refl.
  - intros service service' n Hl. simpl. by rewrite snd_remote_ls.
  - intros service service' n [Hauth Hpin]%listed_iff. apply listed_iff.
    simpl. unfold remote_add.
    destruct (authorised service' n); simpl; [done|].
    split; [done|]. unfold has_pin in *. simpl. rewrite Hpin.
    by rewrite orb_true_r.
Qed.

End MemNodeFacts.

(** ** The store on the node in memory *)

Module Examples.
Import MemNode.

(** The scenario of the specification: with the services [A] and [B],
    [addAsset] returns one identifier, both services list it afterwards,
    and a following [pin] asks both services and sends no pin request. *)
Example two_services_scenario :
  let w := made two in
  let r := addAsset (env := env) [0; 1; 0; 1] "img/cat.png"
             (Some hello) w in
  let w' := snd r in
  fst r = Returned hello_cid /\
  (exists n, ipfs (this w') = Some n /\
             listed (env := env) hello_cid "A" n /\
             listed (env := env) hello_cid "B" n) /\
  events (snd (pin (env := env) [1; 0] hello_cid w')) =
    events w' ++ [EvLs hello_cid "A"; EvLs hello_cid "B";
                  EvLsReply hello_cid "B" SaysPinned;
                  EvLsReply hello_cid "A" SaysPinned].
Proof.
  split; [vm_compute; reflexivity|]. split.
  - eexists. split; [vm_compute; reflexivity|]. split; vm_compute; reflexivity.
  - vm_compute; reflexivity.
Qed.

(** C1: [addAsset] stores [hello] and returns the [CID] object of the
    node; [get] of that object fails before the node is asked, and [get]
    of its text gives [hello] back. *)
Lemma get_rejects_what_addAsset_returns_witness :
  let w := made two in
  let w' := snd (addAsset (env := env) [1; 0; 0; 1] "img/cat.png"
                   (Some hello) w) in
  addAsset (env := env) [1; 0; 0; 1] "img/cat.png" (Some hello) w =
    (Returned hello_cid, w') /\
  get (env := env) (VCID hello_cid) w' =
    (Thrown (TypeError "cidOrURI.startsWith is not a function"), w') /\
  getString (env := env) (VCID hello_cid) w' =
    (Thrown (TypeError "cidOrURI.startsWith is not a function"), w') /\
  getBase64String (env := env) (VCID hello_cid) w' =
    (Thrown (TypeError "cidOrURI.startsWith is not a function"), w') /\
  (FaithfulNode (env := env) ->
   exists w'', get (env := env) (VString "Qmhi") w' = (Returned hello, w'')).
Proof.
  intros w w'.
  assert (Ha : addAsset (env := env) [1; 0; 0; 1] "img/cat.png"
                 (Some hello) w = (Returned hello_cid, w'))
    by (vm_compute; reflexivity).
  split; [exact Ha|].
  exact (get_rejects_what_addAsset_returns _ _ _ _ _ _ Ha).
Defined.



Lemma pin_skips_pinned_witness :
  let w := made two in
  let w' := snd (pin (env := env) [0; 1; 0; 1] "Qmhi" w) in
  KeepsPins (env := env) "Qmhi" /\
  init (env := env) w = (Returned tt, w) /\
  fst (pin (env := env) [0; 1; 0; 1] "Qmhi" w) = Returned tt /\
  last (console w') = Some (LogPinned "Qmhi") /\
  (forall schedule2 evs,
     events (snd (pin (env := env) schedule2 "Qmhi" w')) =
       events w' ++ evs ->
     pin_requests evs = []).
Proof.
  intros w w'.
  assert (H1 : KeepsPins (env := env) "Qmhi")
    by apply MemNodeFacts.keeps_pins.
  assert (H2 : init (env := env) w = (Returned tt, w)) by reflexivity.
  assert (H3 : fst (pin (env := env) [0; 1; 0; 1] "Qmhi" w) = Returned tt)
    by (vm_compute; reflexivity).
  assert (H4 : last (console w') = Some (LogPinned "Qmhi"))
    by (vm_compute; reflexivity).
  split; [exact H1|]. split; [exact H2|]. split; [exact H3|].
  split; [exact H4|].
  exact (proj2 (proj2 (pin_skips_pinned "Qmhi" [0; 1; 0; 1] w w H2) H1)
           H3 H4).
Defined.


(** The prefix is removed once: [get] of [ipfs://ipfs://Qmhi] reads
    [ipfs://Qmhi], which the node does not have, and [get] of
    [ipfs://Qmhi] reads [Qmhi], which it has. *)
Example get_strips_once_on_the_node :
  fst (get (env := env) "ipfs://ipfs://Qmhi" stored) =
    Thrown (LibError "not found") /\
  fst (get (env := env) "ipfs://Qmhi" stored) = Returned hello.
Proof. split; vm_compute; reflexivity. Qed.

Lemma get_uri_tolerance_witness :
  bare "Qmhi" /\
  get (env := env) ("ipfs://" +:+ "Qmhi") = fetch (env := env) "Qmhi" /\
  get (env := env) "Qmhi" = fetch (env := env) "Qmhi" /\
  get (env := env) ("ipfs://" +:+ "Qmhi") = get (env := env) "Qmhi".
Proof.
  split; [reflexivity|]. exact (get_uri_tolerance "Qmhi" eq_refl).
Defined.

Lemma pin_without_services_witness :
  let w := made [] in
  init (env := env) w = (Returned tt, w) /\
  pinningServices (this w) = [] /\
  pin (env := env) [] "Qmhi" w =
    (Returned tt,
     {| this := this w; console := console w ++ [LogNoServices "Qmhi"];
        events := events w; inflight := inflight w |}).
Proof.
  intros w.
  assert (H1 : init (env := env) w = (Returned tt, w)) by reflexivity.
  assert (H2 : pinningServices (this w) = []) by reflexivity.
  split; [exact H1|]. split; [exact H2|].
  exact (pin_without_services [] "Qmhi" w w H1 H2).
Defined.

Lemma pin_swallows_backend_failures_witness :
  let w := made first_refuses in
  let o := fst (pin (env := env) [1; 0] "Qmhi" w) in
  let w' := snd (pin (env := env) [1; 0] "Qmhi" w) in
  let evs := [EvLs "Qmhi" "A"; EvLs "Qmhi" "B";
              EvLsReply "Qmhi" "B" SaysNotPinned; EvPinAdd "Qmhi" "B" false;
              EvLsReply "Qmhi" "A" (LsFailed (LibError "unauthorized"))] in
  _initialized (this w) = true /\
  events w' = events w ++ evs /\
  Exists (failure (LibError "unauthorized")) evs /\
  o = Returned tt /\
  exists e', last (console w') = Some (LogPinningError e') /\
             Exists (failure e') evs.
Proof.
  intros w o w' evs.
  assert (H1 : _initialized (this w) = true) by reflexivity.
  assert (H2 : events w' = events w ++ evs) by (vm_compute; reflexivity).
  assert (H3 : Exists (failure (LibError "unauthorized")) evs).
  { unfold evs. do 4 apply Exists_cons_tl. by apply Exists_cons_hd. }
  split; [exact H1|]. split; [exact H2|]. split; [exact H3|].
  exact (proj2 (proj2 (pin_swallows_backend_failures [1; 0] "Qmhi" w H1))
           evs _ H2 H3).
Defined.

(** C8: the second of three services has no endpoint; [init] fails on
    it, the third service is never sent to the node, and only the first
    name is in the list. *)
Lemma failed_registration_stops_init :
  let r := MakeAssetStorage (env := env) (cfg second_invalid) in
  fst r = Thrown (LibError "invalid endpoint") /\
  events (snd r) =
    [EvCreate false; EvServiceAdd "A" "https://A.example" "k1";
     EvServiceAdd "bad" "" "k"] /\
  pinningServices (this (snd r)) = ["A"] /\
  _initialized (this (snd r)) = false.
Proof. repeat split. Qed.

Lemma init_registers_until_first_failure_witness :
  let w := new_World (Node := t) (cfg second_invalid) in
  let o := fst (init (env := env) w) in
  let w' := snd (init (env := env) w) in
  _initialized (this w) = false /\
  IPFS_create (Env := env) false = inr empty /\
  init (env := env) w = (o, w') /\
  exists done rest,
    AssetStorageConfig.pinningServices (config (this w)) = done ++ rest /\
    Forall (accepted (env := env)) done /\
    pinningServices (this w') = pinningServices (this w) ++ map name done /\
    ((rest = [] /\ o = Returned tt /\ _initialized (this w') = true /\
      events w' = events w ++ EvCreate false :: concat (map attempt done)) \/
     (exists svc rest' e,
        rest = svc :: rest' /\ o = Thrown e /\
        refused (env := env) svc e /\
        _initialized (this w') = false /\
        events w' =
          events w ++ EvCreate false :: concat (map attempt (done ++ [svc])))).
Proof.
  intros w o w'.
  assert (H1 : _initialized (this w) = false) by reflexivity.
  assert (H2 : IPFS_create (Env := env) false = inr empty)
    by reflexivity.
  assert (H3 : init (env := env) w = (o, w')) by reflexivity.
  split; [exact H1|]. split; [exact H2|]. split; [exact H3|].
  exact (proj2 (proj2
           (init_registers_until_first_failure w w' o empty H1 H2 H3))).
Defined.

Lemma init_runs_once_witness :
  let w := made two in
  _initialized (this w) = true /\
  init (env := env) w = (Returned tt, w) /\
  keeps_setup (pin (env := env) [0; 1; 0; 1] "Qmhi") w /\
  keeps_setup (addAsset (env := env) [0; 1; 0; 1] "cat.png" None) w.
Proof.
  intros w.
  assert (H1 : _initialized (this w) = true) by reflexivity.
  destruct (proj2 (init_runs_once (env := env)) w H1)
    as (H2 & H3 & H4 & _).
  split; [exact H1|]. split; [exact H2|].
  split; [apply H3 | apply H4].
Defined.

Lemma get_strips_one_leading_prefix_witness :
  bare "IPFS://Qmhi" /\
  get (env := env) "IPFS://Qmhi" = fetch (env := env) "IPFS://Qmhi".
Proof.
  split; [reflexivity|].
  exact (proj2 (proj2 (proj2
           (get_strips_one_leading_prefix (env := env) "Qmhi")))
           "IPFS://Qmhi" eq_refl).
Defined.

End Examples.

(** ** Further runs on the node in memory *)

Module Runs.
Import MemNode.

Lemma MakeAssetStorage_returned_witness :
  let w := made two in
  MakeAssetStorage (env := env) (cfg two) = (Returned tt, w) /\
  _initialized (this w) = true /\
  is_Some (ipfs (this w)) /\
  config (this w) = cfg two /\
  pinningServices (this w) = ["A"; "B"] /\
  Forall (accepted (env := env)) two /\
  events w =
    [EvCreate false; EvServiceAdd "A" "https://A.example" "k1";
     EvServiceAdd "B" "https://B.example" "k2"] /\
  console w = [] /\
  inflight w = [].
Proof.
  intros w.
  assert (H : MakeAssetStorage (env := env) (cfg two) = (Returned tt, w))
    by reflexivity.
  split; [exact H|].
  exact (MakeAssetStorage_returned (cfg two) w H).
Defined.

Lemma creation_failure_surfaces_witness :
  let w := new_World (Node := t) (cfg two) in
  let e := LibError "repo locked" in
  _initialized (this w) = false /\
  IPFS_create (Env := offline) false = inl e /\
  init (env := offline) w = (Thrown e, tried_create w) /\
  this (tried_create w) = this w /\
  (forall schedule cid,
     pin (env := offline) schedule cid w = (Thrown e, tried_create w)) /\
  (forall schedule filename assetData,
     addAsset (env := offline) schedule filename assetData w =
       (Thrown e, tried_create w)).
Proof.
  intros w e.
  assert (H1 : _initialized (this w) = false) by reflexivity.
  assert (H2 : IPFS_create (Env := offline) false = inl e) by reflexivity.
  split; [exact H1|]. split; [exact H2|].
  exact (creation_failure_surfaces (env := offline) w e H1 H2).
Defined.

Lemma failed_init_is_not_undone_witness :
  let w := new_World (Node := t) (cfg second_invalid) in
  let w1 := snd (init (env := env) w) in
  let w2 := snd (init (env := env) w1) in
  let e := LibError "invalid endpoint" in
  _initialized (this w) = false /\
  init (env := env) w = (Thrown e, w1) /\
  pinningServices (this w2) = ["A"; "A"] /\
  _initialized (this w1) = false /\
  config (this w1) = config (this w) /\
  (exists names,
     pinningServices (this w1) = pinningServices (this w) ++ names) /\
  (forall o2 w2,
     init (env := env) w1 = (o2, w2) ->
     (exists evs, events w2 = events w1 ++ EvCreate false :: evs) /\
     (exists names,
        pinningServices (this w2) = pinningServices (this w1) ++ names)).
Proof.
  intros w w1 w2 e.
  assert (H1 : _initialized (this w) = false) by reflexivity.
  assert (H2 : init (env := env) w = (Thrown e, w1)) by reflexivity.
  split; [exact H1|]. split; [exact H2|]. split; [reflexivity|].
  exact (failed_init_is_not_undone w w1 e H1 H2).
Defined.

Lemma pin_talks_to_registered_services_only_witness :
  let w := made first_refuses in
  let evs := [EvLs "Qmhi" "A"; EvLs "Qmhi" "B";
              EvLsReply "Qmhi" "B" SaysNotPinned; EvPinAdd "Qmhi" "B" false;
              EvPinAddReply "Qmhi" "B" None;
              EvLsReply "Qmhi" "A" (LsFailed (LibError "unauthorized"))] in
  init (env := env) w = (Returned tt, w) /\
  events (snd (pin (env := env) [1; 1; 0] "Qmhi" w)) = events w ++ evs /\
  Forall (fan_event "Qmhi" (pinningServices (this w))) evs.
Proof.
  intros w evs.
  assert (H1 : init (env := env) w = (Returned tt, w)) by reflexivity.
  assert (H2 : events (snd (pin (env := env) [1; 1; 0] "Qmhi" w)) =
               events w ++ evs) by (vm_compute; reflexivity).
  split; [exact H1|]. split; [exact H2|].
  exact (pin_talks_to_registered_services_only [1; 1; 0] "Qmhi" w w evs
           H1 H2).
Defined.

Lemma pinned_everywhere_after_pin_witness :
  let w := made two in
  let w' := snd (pin (env := env) [1; 0; 0; 1] "Qmhi" w) in
  KeepsPins (env := env) "Qmhi" /\
  init (env := env) w = (Returned tt, w) /\
  pin (env := env) [1; 0; 0; 1] "Qmhi" w = (Returned tt, w') /\
  last (console w') = Some (LogPinned "Qmhi") /\
  exists n,
    ipfs (this w') = Some n /\
    forall service,
      service ∈ pinningServices (this w) ->
      listed (env := env) "Qmhi" service n.
Proof.
  intros w w'.
  assert (H1 : KeepsPins (env := env) "Qmhi")
    by apply MemNodeFacts.keeps_pins.
  assert (H2 : init (env := env) w = (Returned tt, w)) by reflexivity.
  assert (H3 : pin (env := env) [1; 0; 0; 1] "Qmhi" w = (Returned tt, w'))
    by (vm_compute; reflexivity).
  assert (H4 : last (console w') = Some (LogPinned "Qmhi"))
    by (vm_compute; reflexivity).
  split; [exact H1|]. split; [exact H2|]. split; [exact H3|].
  split; [exact H4|].
  exact (pinned_everywhere_after_pin [1; 0; 0; 1] "Qmhi" w w w' H1 H2 H3 H4).
Defined.

Lemma pin_asks_each_service_once_witness :
  let w := made two in
  let evs := [EvLs "Qmhi" "A"; EvLs "Qmhi" "B";
              EvLsReply "Qmhi" "A" SaysNotPinned; EvPinAdd "Qmhi" "A" false;
              EvLsReply "Qmhi" "B" SaysNotPinned; EvPinAdd "Qmhi" "B" false;
              EvPinAddReply "Qmhi" "B" None; EvPinAddReply "Qmhi" "A" None] in
  NoDup (pinningServices (this w)) /\
  init (env := env) w = (Returned tt, w) /\
  events (snd (pin (env := env) [0; 1; 1; 0] "Qmhi" w)) = events w ++ evs /\
  NoDup (ls_requests evs) /\ NoDup (pin_requests evs).
Proof.
  intros w evs.
  assert (H1 : NoDup (pinningServices (this w))).
  { change (NoDup ["A"; "B"]). apply NoDup_cons. split.
    - intros [=]%list_elem_of_singleton.
    - apply NoDup_singleton. }
  assert (H2 : init (env := env) w = (Returned tt, w)) by reflexivity.
  assert (H3 : events (snd (pin (env := env) [0; 1; 1; 0] "Qmhi" w)) =
               events w ++ evs) by (vm_compute; reflexivity).
  split; [exact H1|]. split; [exact H2|]. split; [exact H3|].
  exact (pin_asks_each_service_once [0; 1; 1; 0] "Qmhi" w w evs H1 H2 H3).
Defined.

Lemma addAsset_without_data_witness :
  let w := made two in
  init (env := env) w = (Returned tt, w) /\
  addAsset (env := env) [0; 1; 0; 1] "cat.png" None w =
    addAsset (env := env) [0; 1; 0; 1] "cat.png"
      (Some [x89; x50; x4e; x47]%byte) (reading "cat.png" w) /\
  addAsset (env := env) [0; 1; 0; 1] "dog.png" None w =
    (Thrown (LibError "ENOENT"), reading "dog.png" w).
Proof.
  intros w.
  assert (H : init (env := env) w = (Returned tt, w)) by reflexivity.
  split; [exact H|]. split.
  - exact (addAsset_without_data (env := env) [0; 1; 0; 1] "cat.png" w w H).
  - exact (addAsset_without_data (env := env) [0; 1; 0; 1] "dog.png" w w H).
Defined.

Lemma addAsset_fails_before_pinning_witness :
  let w := snd (MakeAssetStorage (env := full) (cfg two)) in
  let w' := snd (addAsset (env := full) [0; 1] "img/cat.png" (Some hello) w) in
  let e := LibError "no space" in
  init (env := full) w = (Returned tt, w) /\
  addAsset (env := full) [0; 1] "img/cat.png" (Some hello) w =
    (Thrown e, w') /\
  (ipfs (this w) = None /\ w' = w \/
   exists n n',
     ipfs (this w) = Some n /\
     ipfs_add (Env := full) (path_basename (Env := full) "img/cat.png")
       hello n = (inl e, n') /\
     w' = asked (env := full) "img/cat.png" hello n' w) /\
  exists evs,
    events w' = events w ++ evs /\
    ls_requests evs = [] /\ pin_requests evs = [].
Proof.
  intros w w' e.
  assert (H1 : init (env := full) w = (Returned tt, w)) by reflexivity.
  assert (H2 : addAsset (env := full) [0; 1] "img/cat.png" (Some hello) w =
               (Thrown e, w')) by (vm_compute; reflexivity).
  split; [exact H1|]. split; [exact H2|].
  exact (addAsset_fails_before_pinning (env := full) [0; 1] "img/cat.png"
           hello w w w' e H1 H2).
Defined.

Lemma addAsset_adds_then_pins_witness :
  let w := made two in
  let w' := snd (addAsset (env := env) [0; 1; 0; 1] "img/cat.png"
                   (Some hello) w) in
  init (env := env) w = (Returned tt, w) /\
  addAsset (env := env) [0; 1; 0; 1] "img/cat.png" (Some hello) w =
    (Returned hello_cid, w') /\
  exists n n' exchanged,
    ipfs (this w) = Some n /\
    ipfs_add (Env := env) (path_basename (Env := env) "img/cat.png")
      hello n = (inr hello_cid, n') /\
    events w' =
      events w ++
      EvAdd (path_basename (Env := env) "img/cat.png") hello :: exchanged /\
    ls_requests exchanged =
      (fun s => (VCID hello_cid, s)) <$> pinningServices (this w) /\
    Forall (fan_event (VCID hello_cid) (pinningServices (this w))) exchanged.
Proof.
  intros w w'.
  assert (H1 : init (env := env) w = (Returned tt, w)) by reflexivity.
  assert (H2 : addAsset (env := env) [0; 1; 0; 1] "img/cat.png"
                 (Some hello) w = (Returned hello_cid, w'))
    by (vm_compute; reflexivity).
  split; [exact H1|]. split; [exact H2|].
  exact (addAsset_adds_then_pins (env := env) [0; 1; 0; 1] "img/cat.png"
           hello w w w' hello_cid H1 H2).
Defined.

Lemma stored_asset_reads_back_witness :
  let w := made two in
  let w' := snd (addAsset (env := env) [0; 1; 0; 1] "img/cat.png"
                   (Some hello) w) in
  FaithfulNode (env := env) /\
  addAsset (env := env) [0; 1; 0; 1] "img/cat.png" (Some hello) w =
    (Returned hello_cid, w') /\
  exists w'',
    get (env := env) (VString "Qmhi") w' = (Returned hello, w'') /\
    get (env := env) (VString "ipfs://Qmhi") w' = (Returned hello, w'') /\
    getString (env := env) (VString "Qmhi") w' = (Returned "hi", w'') /\
    getString (env := env) (VString "ipfs://Qmhi") w' =
      (Returned "hi", w'') /\
    getBase64String (env := env) (VString "Qmhi") w' =
      (Returned "aGk", w'') /\
    getBase64String (env := env) (VString "ipfs://Qmhi") w' =
      (Returned "aGk", w'').
Proof.
  intros w w'.
  assert (H1 : FaithfulNode (env := env)) by apply MemNodeFacts.faithful.
  assert (H2 : addAsset (env := env) [0; 1; 0; 1] "img/cat.png"
                 (Some hello) w = (Returned hello_cid, w'))
    by (vm_compute; reflexivity).
  split; [exact H1|]. split; [exact H2|].
  exact (stored_asset_reads_back (env := env) [0; 1; 0; 1] "img/cat.png"
           hello w w' hello_cid H1 H2).
Defined.

End Runs.
